(** * A round-robin pool of API keys with failover: [agent/key_manager.py]

    A shallow embedding of [GeminiKeyManager] and of the Python built-ins it
    calls, followed by the properties of its selection, failover and reporting
    operations.

    Modelling conventions.
    - A Python [str] is a [string]; its characters are the code points below
      256.  [len], slices, [strip], [split] and [splitlines] are written out
      in [Module Py].
    - A method of the manager is a computation [M A]: it receives the manager
      ([self]) and the outside world, and gives back either a returned value
      or a raised exception, with the manager and the world as they are at
      that point.  The world answers [time.time()] and runs the caller's
      callable; both may change it.
    - The callable returns a value, raises an [Exception], which
      [run_with_key] catches, or raises an exception of another class
      ([KeyboardInterrupt], [SystemExit], ...), which it does not.
    - The lock is held for the whole of each bookkeeping method, so a method
      is one atomic step; the development is about one thread of calls, and
      the callable handed to [run_with_key] does not call back into the
      manager. *)

From Stdlib Require Import Ascii.
From stdpp Require Import gmap strings list.


(** ** Python built-ins used by the source *)

Module Py.

(** [len(s)] *)
Definition len (s : string) : nat := String.length s.

(** [s[:n]] for [n >= 0] *)
Fixpoint take (n : nat) (s : string) : string :=
  match n, s with
  | S n', String c s' => String c (take n' s')
  | _, _ => ""
  end.

(** [s[n:]] for [n >= 0] *)
Fixpoint drop (n : nat) (s : string) : string :=
  match n, s with
  | S n', String _ s' => drop n' s'
  | _, _ => s
  end.

(** [s[-n:]] for [n > 0]: the start [len(s) - n] is clipped at 0. *)
Definition last (n : nat) (s : string) : string := drop (len s - n) s.

(** [c.isspace()] for a code point below 256. *)
Definition isspace (c : ascii) : bool :=
  let n := nat_of_ascii c in
  bool_decide (9 ≤ n ≤ 13) || bool_decide (28 ≤ n ≤ 32)
  || bool_decide (n = 133) || bool_decide (n = 160).

(** The line boundaries of [str.splitlines] below 256. *)
Definition islinebreak (c : ascii) : bool :=
  let n := nat_of_ascii c in
  bool_decide (10 ≤ n ≤ 13) || bool_decide (28 ≤ n ≤ 30)
  || bool_decide (n = 133).

Fixpoint lstrip (s : string) : string :=
  match s with
  | String c s' => if isspace c then lstrip s' else s
  | "" => ""
  end.

Fixpoint rstrip (s : string) : string :=
  match s with
  | String c s' =>
      match rstrip s' with
      | "" => if isspace c then "" else String c ""
      | t => String c t
      end
  | "" => ""
  end.

(** [s.strip()] *)
Definition strip (s : string) : string := rstrip (lstrip s).

(** [s.split(sep)] for a one-character separator: never an empty list. *)
Fixpoint split (sep : ascii) (s : string) : list string :=
  match s with
  | "" => [""]
  | String c s' =>
      if decide (c = sep) then "" :: split sep s'
      else match split sep s' with
           | piece :: pieces => String c piece :: pieces
           | [] => [String c ""]
           end
  end.

(** [s.splitlines()]: cut at every line boundary, a carriage return
    followed by a line feed counting as one; no empty last line. *)
Fixpoint splitlines_go (cur : string) (s : string) : list string :=
  match s with
  | "" => match cur with "" => [] | _ => [String.rev cur] end
  | String c s' =>
      if islinebreak c then
        String.rev cur ::
          match s' with
          | String c' s'' =>
              if decide (c = "013"%char ∧ c' = "010"%char)
              then splitlines_go "" s''
              else splitlines_go "" s'
          | "" => []
          end
      else splitlines_go (String c cur) s'
  end.
Definition splitlines (s : string) : list string := splitlines_go "" s.

(** Truthiness of a [str]: [if s:] *)
Definition truthy (s : string) : bool :=
  match s with "" => false | _ => true end.

End Py.

(** ** The data model *)

(** [GeminiKeyRecord.status] takes the four values the source assigns. *)
Inductive Status := idle | active | healthy | failed.

Global Instance Status_eq_dec : EqDecision Status.
Proof. solve_decision. Defined.

(** The class of an exception that is not an [Exception]: [except
    Exception] does not catch it. *)
Inductive BaseException :=
| KeyboardInterrupt
| SystemExit
| GeneratorExit
| OtherBaseException (name : string).

Section Manager.
(** [Time]: the floats of [time.time()]; [Err]: the exceptions of class
    [Exception] the callable raises; [Val]: what it returns; [World]: the
    state of everything outside the manager. *)
Context {Time Err Val World : Type}.
(** [time.time()] *)
Variable time_time : World → Time * World.
(** [str(error)] *)
Variable str : Err → string.
(** [datetime.fromtimestamp(ts, tz=timezone.utc).isoformat()] *)
Variable isoformat : Time → string.

Record GeminiKeyRecord := {
  raw_key : string;
  masked_key : string;
  status : Status;
  disabled : bool;
  last_error : option string;
  last_used_at : option Time;
  last_success_at : option Time;
  last_failure_at : option Time;
  success_count : nat;
  failure_count : nat;
  last_used : bool
}.

Record GeminiKeyManager := {
  _records : list GeminiKeyRecord;
  _next_index : nat;
  _last_used_index : option nat
}.

Inductive exn :=
| ValueError (msg : string)
| IndexError
| ZeroDivisionError
| GeminiKeyExhaustedError (msg : string) (errors : list Err)
| Propagated (b : BaseException).

Inductive result (A : Type) :=
| Return (a : A)
| Raise (e : exn).
Global Arguments Return {A} a.
Global Arguments Raise {A} e.

(** ** Computations over the manager and the world *)

Definition M (A : Type) : Type :=
  GeminiKeyManager → World → result A * GeminiKeyManager * World.

Definition ret {A} (a : A) : M A := λ self w, (Return a, self, w).

Definition raise {A} (e : exn) : M A := λ self w, (Raise e, self, w).

Definition bind {A B} (m : M A) (k : A → M B) : M B :=
  λ self w,
    match m self w with
    | (Return a, self', w') => k a self' w'
    | (Raise e, self', w') => (Raise e, self', w')
    end.

Notation "'let*' x ':=' m 'in' k" := (bind m (λ x, k))
  (at level 10, x name, m at level 100, k at level 200).
Notation "m ';;' k" := (bind m (λ _, k))
  (at level 100, k at level 200, right associativity).

Definition get : M GeminiKeyManager := λ self w, (Return self, self, w).

Definition modify (f : GeminiKeyManager → GeminiKeyManager) : M unit :=
  λ self w, (Return (), f self, w).

(** [len(self._records)] *)
Definition len_records : M nat := let* self := get in ret (length (_records self)).

(** [self._records[index]] for [index >= 0]: an [IndexError] out of range. *)
Definition getitem (index : nat) : M GeminiKeyRecord :=
  let* self := get in
  match _records self !! index with
  | Some record => ret record
  | None => raise IndexError
  end.

(** Assignments to the attributes of the record object that
    [self._records[index]] gave: the object in the list changes. *)
Definition update_record (index : nat) (f : GeminiKeyRecord → GeminiKeyRecord) : M unit :=
  modify (λ self,
    {| _records := alter f index (_records self);
       _next_index := _next_index self;
       _last_used_index := _last_used_index self |}).

Definition set_next_index (n : nat) : M unit :=
  modify (λ self,
    {| _records := _records self;
       _next_index := n;
       _last_used_index := _last_used_index self |}).

Definition set_last_used_index (o : option nat) : M unit :=
  modify (λ self,
    {| _records := _records self;
       _next_index := _next_index self;
       _last_used_index := o |}).

(** [a % b] on naturals *)
Definition py_mod (a b : nat) : M nat :=
  match b with
  | 0 => raise ZeroDivisionError
  | _ => ret (a mod b)
  end.

Definition now : M Time :=
  λ self w, let '(t, w') := time_time w in (Return t, self, w').

(** What a callable raises: an [Exception], or an exception of another
    class. *)
Inductive Raised :=
| Exception (exc : Err)
| NotException (b : BaseException).

(** The callable of [run_with_key]: it returns a value or raises, and may
    change the world. *)
Definition Callable : Type := string → World → (Val + Raised) * World.

(** [try: result = fn(key) except Exception as exc: ...] up to the choice
    of the branch: the value, or the [Exception] caught; an exception of
    another class is not caught and leaves the method. *)
Definition call (fn : Callable) (key : string) : M (Val + Err) :=
  λ self w,
    let '(outcome, w') := fn key w in
    match outcome with
    | inl value => (Return (inl value), self, w')
    | inr (Exception exc) => (Return (inr exc), self, w')
    | inr (NotException b) => (Raise (Propagated b), self, w')
    end.

(** ** [GeminiKeyManager] *)

(** [_mask_key] *)
Definition _mask_key (key : string) : string :=
  if decide (Py.len key ≤ 10)
  then Py.take 2 key +:+ "***" +:+ Py.last 2 key
  else Py.take 6 key +:+ "..." +:+ Py.last 4 key.

(** [GeminiKeyRecord(raw_key=key, masked_key=self._mask_key(key))] *)
Definition new_record (key : string) : GeminiKeyRecord :=
  {| raw_key := key; masked_key := _mask_key key; status := idle;
     disabled := false; last_error := None; last_used_at := None;
     last_success_at := None; last_failure_at := None;
     success_count := 0; failure_count := 0; last_used := false |}.

(** [__init__]: the constructed manager, or the [ValueError]. *)
Definition __init__ (keys : list string) : result GeminiKeyManager :=
  match keys with
  | [] =>
      Raise (ValueError
        "GeminiKeyManager requires at least one API key. Set GEMINI_API_KEYS or GEMINI_API_KEY.")
  | _ =>
      Return {| _records := new_record <$> keys;
                _next_index := 0;
                _last_used_index := None |}
  end.

(** The writes of [_activate_next_index] to the record it found. *)
Definition activated (t : Time) (record : GeminiKeyRecord) : GeminiKeyRecord :=
  {| raw_key := raw_key record; masked_key := masked_key record;
     status := active;
     disabled := disabled record; last_error := last_error record;
     last_used_at := Some t;
     last_success_at := last_success_at record;
     last_failure_at := last_failure_at record;
     success_count := success_count record;
     failure_count := failure_count record; last_used := last_used record |}.

(** The body of [for offset in range(total)], over the offsets left. *)
Fixpoint scan_offsets (total : nat) (offsets : list nat) : M (option nat) :=
  match offsets with
  | [] => ret None
  | offset :: offsets' =>
      let* self := get in
      let* index := py_mod (_next_index self + offset) total in
      let* record := getitem index in
      if disabled record then scan_offsets total offsets'
      else
        let* t := now in
        update_record index (activated t);;
        let* next := py_mod (index + 1) total in
        set_next_index next;;
        ret (Some index)
  end.

Definition _activate_next_index : M (option nat) :=
  let* total := len_records in
  scan_offsets total (seq 0 total).

(** [self._records[self._last_used_index].last_used = False] *)
Definition unmarked (record : GeminiKeyRecord) : GeminiKeyRecord :=
  {| raw_key := raw_key record; masked_key := masked_key record;
     status := status record; disabled := disabled record;
     last_error := last_error record; last_used_at := last_used_at record;
     last_success_at := last_success_at record;
     last_failure_at := last_failure_at record;
     success_count := success_count record;
     failure_count := failure_count record;
     last_used := false |}.

(** The writes of [_record_success] to [self._records[index]]. *)
Definition succeeded (t : Time) (record : GeminiKeyRecord) : GeminiKeyRecord :=
  {| raw_key := raw_key record; masked_key := masked_key record;
     status := healthy;
     disabled := disabled record;
     last_error := None;
     last_used_at := Some t;
     last_success_at := Some t;
     last_failure_at := last_failure_at record;
     success_count := success_count record + 1;
     failure_count := failure_count record;
     last_used := true |}.

Definition _record_success (index : nat) : M unit :=
  let* t := now in
  let* self := get in
  match _last_used_index self with
  | Some previous =>
      if decide (previous ≠ index)
      then getitem previous;; update_record previous unmarked
      else ret ()
  | None => ret ()
  end;;
  getitem index;;
  update_record index (succeeded t);;
  set_last_used_index (Some index).

(** The writes of [_record_failure] to [self._records[index]]. *)
Definition failed_with (t : Time) (error : Err) (record : GeminiKeyRecord) : GeminiKeyRecord :=
  {| raw_key := raw_key record; masked_key := masked_key record;
     status := failed;
     disabled := true;
     last_error := Some (str error);
     last_used_at := last_used_at record;
     last_success_at := last_success_at record;
     last_failure_at := Some t;
     success_count := success_count record;
     failure_count := failure_count record + 1;
     last_used := false |}.

Definition _record_failure (index : nat) (error : Err) : M unit :=
  let* t := now in
  getitem index;;
  update_record index (failed_with t error);;
  let* self := get in
  if decide (_last_used_index self = Some index)
  then set_last_used_index None
  else ret ().

Definition exhausted (errors : list Err) : exn :=
  GeminiKeyExhaustedError
    "All Gemini API keys failed. Review key statuses for details." errors.

(** The body of [for _ in range(len(self._records))], over the iterations
    left, and the [raise] after the loop. *)
Fixpoint run_loop (fn : Callable) (iterations : nat) (errors : list Err) : M Val :=
  match iterations with
  | 0 => raise (exhausted errors)
  | S iterations' =>
      let* index := _activate_next_index in
      match index with
      | None => raise (exhausted errors)
      | Some index =>
          let* key_record := getitem index in
          let key := raw_key key_record in
          let* outcome := call fn key in
          match outcome with
          | inr exc =>
              _record_failure index exc;;
              run_loop fn iterations' (errors ++ [exc])
          | inl result =>
              _record_success index;;
              ret result
          end
      end
  end.

Definition run_with_key (fn : Callable) : M Val :=
  let* total := len_records in
  run_loop fn total [].

(** One entry of [get_statuses]. *)
Record KeyStatus := {
  index : nat;
  maskedKey : string;
  status' : Status;
  disabled' : bool;
  lastError : option string;
  lastUsedAt : option string;
  lastSuccessAt : option string;
  lastFailureAt : option string;
  successCount : nat;
  failureCount : nat;
  isLastUsed : bool
}.

(** [_format_ts] *)
Definition _format_ts (ts : option Time) : option string :=
  match ts with
  | None => None
  | Some ts => Some (isoformat ts)
  end.

(** [get_statuses] reads the manager only. *)
Definition get_statuses (self : GeminiKeyManager) : list KeyStatus :=
  imap (λ idx record,
    {| index := idx;
       maskedKey := masked_key record;
       status' := status record;
       disabled' := disabled record;
       lastError := last_error record;
       lastUsedAt := _format_ts (last_used_at record);
       lastSuccessAt := _format_ts (last_success_at record);
       lastFailureAt := _format_ts (last_failure_at record);
       successCount := success_count record;
       failureCount := failure_count record;
       isLastUsed := last_used record |}) (_records self).

(** [available_key_count] reads the manager only. *)
Definition available_key_count (self : GeminiKeyManager) : nat :=
  sum_list ((λ _, 1) <$> filter (λ record, disabled record = false) (_records self)).

(** ** [from_environment] *)

(** [[part.strip() for part in chunk.split(",") if part.strip()]] *)
Definition parts_of (chunk : string) : list string :=
  Py.strip <$> filter (λ part, Py.truthy (Py.strip part) = true) (Py.split "," chunk).

(** [for chunk in raw_keys.splitlines(): ... keys.extend(parts)] *)
Definition collect_keys (raw_keys : string) : list string :=
  foldl (λ keys chunk, keys ++ parts_of chunk) [] (Py.splitlines raw_keys).

(** One turn of [for key in keys: if key and key not in seen: ...] on
    [(unique_keys, seen)]. *)
Definition dedupe_step (acc : list string * gset string) (key : string)
    : list string * gset string :=
  let '(unique_keys, seen) := acc in
  if decide (Py.truthy key = true ∧ key ∉ seen)
  then (unique_keys ++ [key], seen ∪ {[ key ]})
  else (unique_keys, seen).

Definition dedupe (keys : list string) : list string :=
  (foldl dedupe_step ([], ∅) keys).1.

(** The keys [from_environment] reads from [os.environ], as it is after
    [load_dotenv()].  [if raw_keys:] holds of a string that is there and
    is not empty. *)
Definition environment_keys (environ : gmap string string) : list string :=
  let raw_keys := environ !! "GEMINI_API_KEYS" in
  let keys :=
    match raw_keys with
    | Some (String _ _ as raw_keys) => collect_keys raw_keys
    | _ =>
        let single_key := environ !! "GEMINI_API_KEY" in
        match single_key with
        | Some (String _ _ as single_key) => [Py.strip single_key]
        | _ => []
        end
    end in
  dedupe keys.

Definition from_environment (environ : gmap string string) : result GeminiKeyManager :=
  let unique_keys := environment_keys environ in
  match unique_keys with
  | [] =>
      Raise (ValueError
        "No Gemini API keys found. Provide GEMINI_API_KEYS or GEMINI_API_KEY.")
  | _ => __init__ unique_keys
  end.

(** ** Callers *)

(** A caller that catches what a call raises: the outcome of the call as a
    value. *)
Definition try {A} (m : M A) : M (result A) :=
  λ self w, let '(r, self', w') := m self w in (Return r, self', w').

(** [n] calls of [m] in a row, with their outcomes. *)
Fixpoint times {A} (n : nat) (m : M A) : M (list (result A)) :=
  match n with
  | 0 => ret []
  | S n' =>
      let* r := try m in
      let* rs := times n' m in
      ret (r :: rs)
  end.

(** The calls a client of the manager can make, the bookkeeping methods
    included, with any index. *)
Inductive Call :=
| CallActivate
| CallSuccess (index : nat)
| CallFailure (index : nat) (error : Err)
| CallRun (fn : Callable).

Definition perform (c : Call) : M unit :=
  match c with
  | CallActivate => _activate_next_index;; ret ()
  | CallSuccess index => _record_success index
  | CallFailure index error => _record_failure index error
  | CallRun fn => run_with_key fn;; ret ()
  end.

(** The manager after the call, whether it returned or raised. *)
Definition after (c : Call) (self : GeminiKeyManager) (w : World) : GeminiKeyManager :=
  (perform c self w).1.2.

(** The managers that [__init__ keys] and then any calls, in any worlds,
    lead to. *)
Inductive reachable (keys : list string) : GeminiKeyManager → Prop :=
| reachable_init self :
    __init__ keys = Return self → reachable keys self
| reachable_call self c w :
    reachable keys self → reachable keys (after c self w).

(** ** Rotation order *)

(** The record at [index] exists and is not disabled. *)
Definition eligible (self : GeminiKeyManager) (index : nat) : bool :=
  match _records self !! index with
  | Some record => negb (disabled record)
  | None => false
  end.

(** The indices in increasing cyclic order from [start]. *)
Definition cyclic_order (start total : nat) : list nat :=
  (λ offset, (start + offset) mod total) <$> seq 0 total.

(** The eligible indices, in cyclic order from the cursor. *)
Definition rotation (self : GeminiKeyManager) : list nat :=
  filter (λ index, eligible self index = true)
    (cyclic_order (_next_index self) (length (_records self))).

(** Every record is eligible. *)
Definition all_eligible (self : GeminiKeyManager) : Prop :=
  ∀ j, j < length (_records self) → eligible self j = true.

(** The manager after [_activate_next_index] chose [index] at time [t]. *)
Definition selected (index : nat) (t : Time) (self : GeminiKeyManager) : GeminiKeyManager :=
  {| _records := alter (activated t) index (_records self);
     _next_index := (index + 1) mod length (_records self);
     _last_used_index := _last_used_index self |}.

(** The manager after [_record_failure index error] at time [t]. *)
Definition failed_at (index : nat) (t : Time) (error : Err) (self : GeminiKeyManager)
    : GeminiKeyManager :=
  {| _records := alter (failed_with t error) index (_records self);
     _next_index := _next_index self;
     _last_used_index :=
       if decide (_last_used_index self = Some index) then None
       else _last_used_index self |}.

(** The manager after the first statement of [_record_success index]. *)
Definition unmark_previous (index : nat) (self : GeminiKeyManager) : GeminiKeyManager :=
  {| _records :=
       match _last_used_index self with
       | Some previous =>
           if decide (previous ≠ index)
           then alter unmarked previous (_records self)
           else _records self
       | None => _records self
       end;
     _next_index := _next_index self;
     _last_used_index := _last_used_index self |}.

(** The manager after [_record_success index] at time [t]. *)
Definition succeeded_at (index : nat) (t : Time) (self : GeminiKeyManager)
    : GeminiKeyManager :=
  {| _records := alter (succeeded t) index (_records (unmark_previous index self));
     _next_index := _next_index self;
     _last_used_index := Some index |}.

(** What the bookkeeping methods do to the manager, as steps: every call
    is a sequence of them ([after_steps] below). *)
Inductive steps (self : GeminiKeyManager) : GeminiKeyManager → Prop :=
| steps_none :
    steps self self
| steps_select self' index t :
    steps self self' →
    steps self (selected index t self')
| steps_failure self' index t error :
    steps self self' →
    steps self (failed_at index t error self')
| steps_unmark self' index :
    steps self self' →
    steps self (unmark_previous index self')
| steps_success self' index t :
    steps self self' →
    index < length (_records self') →
    steps self (succeeded_at index t self').

(** [self._records[index].raw_key], the empty string standing for no
    record. *)
Definition key_at (self : GeminiKeyManager) (index : nat) : string :=
  from_option raw_key "" (_records self !! index).

(** The loop of [run_with_key] as a walk over [indices]: the keys are tried
    in order until the callable returns, or raises what is not an
    [Exception]. *)
Fixpoint failover (fn : Callable) (indices : list nat) (errors : list Err)
    (self : GeminiKeyManager) (w : World) : result Val * GeminiKeyManager * World :=
  match indices with
  | [] => (Raise (exhausted errors), self, w)
  | index :: indices' =>
      let '(t, w1) := time_time w in
      let '(outcome, w2) := fn (key_at self index) w1 in
      match outcome with
      | inl value =>
          let '(t', w3) := time_time w2 in
          (Return value, succeeded_at index t' (selected index t self), w3)
      | inr (Exception exc) =>
          let '(t', w3) := time_time w2 in
          failover fn indices' (errors ++ [exc])
            (failed_at index t' exc (selected index t self)) w3
      | inr (NotException b) =>
          (Raise (Propagated b), selected index t self, w2)
      end
  end.

(** A record that carries the mark is the one [_last_used_index] names. *)
Definition marked_is_last (self : GeminiKeyManager) : Prop :=
  ∀ index record,
    _records self !! index = Some record → last_used record = true →
    _last_used_index self = Some index.

(** What holds of every manager a client can see: the cursor and the index
    of the last success are indices of records. *)
Definition well_formed (self : GeminiKeyManager) : Prop :=
  _next_index self < length (_records self)
  ∧ ∀ previous, _last_used_index self = Some previous → previous < length (_records self).

(** The manager after the calls of the list, each in its world. *)
Definition after_calls (calls : list (Call * World)) (self : GeminiKeyManager)
    : GeminiKeyManager :=
  foldl (λ self cw, after cw.1 self cw.2) self calls.

(** ** Observing the attempts of a run *)

(** One call of the callable: the key it was given and what came of it. *)
Definition Attempt : Type := string * (Val + Raised).

(** The callable, in a world that also keeps the list of its calls (as the
    tests do with [seen.append(key)]). *)
Definition recording (fn : Callable)
    : string → World * list Attempt → (Val + Raised) * (World * list Attempt) :=
  λ key '(w, log),
    let '(outcome, w') := fn key w in (outcome, (w', log ++ [(key, outcome)])).

Definition recording_time : World * list Attempt → Time * (World * list Attempt) :=
  λ '(w, log), let '(t, w') := time_time w in (t, (w', log)).

(** The attempt raised an [Exception]. *)
Definition is_failure (a : Attempt) : Prop :=
  match a.2 with inr (Exception _) => True | _ => False end.

(** The [Exception]s among the attempts, in order. *)
Definition failures (log : list Attempt) : list Err :=
  omap (λ a : Attempt,
          match a.2 with inr (Exception exc) => Some exc | _ => None end) log.
End Manager.

(** ** The keys of the environment, with the operations of Python *)

(** The first occurrence of every element, in order: duplicates removed,
    first-seen order kept. *)
Fixpoint first_seen (l : list string) : list string :=
  match l with
  | [] => []
  | x :: l' => x :: filter (λ y, y ≠ x) (first_seen l')
  end.



(** ** The keys of the environment, in the words of the specification *)

(** The characters of a string, and the string of some characters. *)
Fixpoint chars (s : string) : list ascii :=
  match s with
  | "" => []
  | String c s' => c :: chars s'
  end.

Fixpoint text (l : list ascii) : string :=
  match l with
  | [] => ""
  | c :: l' => String c (text l')
  end.

(** The character has one of the code points. *)
Definition code_in (codes : list nat) (c : ascii) : bool :=
  bool_decide (nat_of_ascii c ∈ codes).

(** The code points of white space, of the ends of a line, of the line
    feed and of the comma. *)
Definition blanks : list nat := [9; 10; 11; 12; 13; 28; 29; 30; 31; 32; 133; 160].
Definition line_ends : list nat := [10; 11; 12; 13; 28; 29; 30; 133].
Definition newlines : list nat := [10].
Definition commas : list nat := [44].

(** The characters without the blanks at their start. *)
Fixpoint without_leading_blanks (l : list ascii) : list ascii :=
  match l with
  | c :: l' => if code_in blanks c then without_leading_blanks l' else l
  | [] => []
  end.

(** An entry, trimmed: without the blanks at its start and at its end. *)
Definition trimmed (l : list ascii) : list ascii :=
  reverse (without_leading_blanks (reverse (without_leading_blanks l))).

(** The runs of characters between the separators: one more than there
    are separators. *)
Fixpoint separated (seps : list nat) (l : list ascii) : list (list ascii) :=
  match l with
  | [] => [[]]
  | c :: l' =>
      if code_in seps c then [] :: separated seps l'
      else match separated seps l' with
           | run :: runs => (c :: run) :: runs
           | [] => [[c]]
           end
  end.

(** The value cut into groups at the characters [ends], each group cut at
    the commas, every entry trimmed, the empty ones discarded. *)
Definition spec_entries (ends : list nat) (raw_keys : string) : list string :=
  text
  <$> filter (λ entry, entry ≠ [])
        (trimmed <$> (separated ends (chars raw_keys) ≫= separated commas)).

Definition spec_candidates (ends : list nat) (environ : gmap string string)
    : list string :=
  match environ !! "GEMINI_API_KEYS" with
  | Some (String _ _ as raw_keys) => spec_entries ends raw_keys
  | _ =>
      match environ !! "GEMINI_API_KEY" with
      | Some (String _ _ as single_key) =>
          filter (λ entry, entry ≠ "")
            [text (trimmed (chars single_key))]
      | _ => []
      end
  end.

(** The keys, for groups that end at the characters [ends]: the first
    occurrence of each entry. *)
Definition spec_keys (ends : list nat) (environ : gmap string string) : list string :=
  first_seen (spec_candidates ends environ).

(** ** What a masked key shows *)

(** The characters of the key that [_mask_key] copies: the first and the
    last ones, two of each for a short key, six and four for a long one. *)
Definition boundary (key : string) : string * string :=
  if decide (Py.len key ≤ 10)
  then (Py.take 2 key, Py.last 2 key)
  else (Py.take 6 key, Py.last 4 key).

(** What a reader of [get_statuses()] who knows that the key has [n ≤ 4]
    characters makes of its masked form: the characters before the marker,
    and those after it that the first ones do not already give. *)
Definition unmask (n : nat) (masked : string) : string :=
  let k := n `min` 2 in
  Py.take k masked +:+ Py.drop (k + k - n) (Py.drop (k + 3) masked).

(** ** The module's manager *)

Section Singleton.
Context {Time Err : Type}.

(** The state of the module: the manager objects that exist, each at its
    address (its position in [objects]), and the global [_manager], which
    is [None] or the address of one of them. *)
Record Globals := {
  objects : list (@GeminiKeyManager Time);
  _manager : option nat
}.

(** [initialize_key_manager(keys)]: the address of the manager it returns,
    or what the constructor raised.  [environ] is [os.environ] after
    [load_dotenv()]. *)
Definition initialize_key_manager (keys : option (list string))
    (environ : gmap string string) (globals : Globals)
    : @result Err nat * Globals :=
  match _manager globals with
  | None =>
      let made :=
        match keys with
        | Some keys => __init__ keys
        | None => from_environment environ
        end in
      match made with
      | Return manager =>
          let address := length (objects globals) in
          (Return address,
           {| objects := objects globals ++ [manager];
              _manager := Some address |})
      | Raise e => (Raise e, globals)
      end
  | Some address => (Return address, globals)
  end.

(** [get_key_manager()] *)
Definition get_key_manager (environ : gmap string string) (globals : Globals)
    : @result Err nat * Globals :=
  match _manager globals with
  | None => initialize_key_manager None environ globals
  | Some address => (Return address, globals)
  end.

(** A call of one of the two functions of the module. *)
Inductive Access :=
| Initialize (keys : option (list string))
| Get.

Definition access (a : Access) (environ : gmap string string) (globals : Globals)
    : @result Err nat * Globals :=
  match a with
  | Initialize keys => initialize_key_manager keys environ globals
  | Get => get_key_manager environ globals
  end.

(** The calls of the list in turn, each with the environment of its time:
    what each gave, and the state of the module after the last. *)
Fixpoint access_all (calls : list (Access * gmap string string)) (globals : Globals)
    : list (@result Err nat) * Globals :=
  match calls with
  | [] => ([], globals)
  | (a, environ) :: calls' =>
      let '(r, globals1) := access a environ globals in
      let '(rs, globals2) := access_all calls' globals1 in
      (r :: rs, globals2)
  end.

(** What a call constructs when no manager exists yet. *)
Definition constructs (a : Access) (environ : gmap string string)
    : @result Err (@GeminiKeyManager Time) :=
  match a with
  | Initialize (Some keys) => __init__ keys
  | Initialize None | Get => from_environment environ
  end.
End Singleton.

(** ** The managers of a client that only runs callables *)

Section Runs.
Context {Time Err Val World : Type}.
Variable time_time : World → Time * World.
Variable str : Err → string.




(** The sums of the counters over the records. *)
Definition successes (self : @GeminiKeyManager Time) : nat :=
  sum_list (success_count <$> _records self).

Definition failures_counted (self : @GeminiKeyManager Time) : nat :=
  sum_list (failure_count <$> _records self).
End Runs.

(** ** The worlds of the tests *)

(** A clock that advances by one at each reading; the world is the clock. *)
Definition ticking (w : nat) : nat * nat := (w, S w).

(** A rendering of the readings of that clock: the epoch for each. *)
Definition epoch (t : nat) : string := "1970-01-01T00:00:00+00:00".

(** [recorder] and [always_success] of the tests: the key comes back. *)
Definition always_success : @Callable string string nat :=
  λ key w, (inl key, w).

(** [fail_for_bad] of the tests. *)
Definition fail_for_bad : @Callable string string nat :=
  λ key w,
    if decide (key = "bad") then (inr (Exception "bad key disabled"), w)
    else (inl key, w).

(** [always_fail] of the tests. *)
Definition always_fail : @Callable string string nat :=
  λ _ w, (inr (Exception "no keys work"), w).

(** A callable that is interrupted from the keyboard. *)
Definition interrupted : @Callable string string nat :=
  λ _ w, (inr (NotException KeyboardInterrupt), w).

(** [GeminiKeyManager(keys)] for a list that is not empty. *)
Definition manager_of (keys : list string) : @GeminiKeyManager nat :=
  {| _records := new_record <$> keys; _next_index := 0; _last_used_index := None |}.

(** ** Proofs *)

(** Unfolds the primitive computations in the goal. *)
Ltac unfold_M :=
  unfold len_records, getitem, update_record, set_next_index,
    set_last_used_index;
  unfold bind, ret, raise, get, modify, py_mod, now, call, try;
  cbv beta iota zeta.

(** *** What each bookkeeping method computes *)

Section Bookkeeping.
Context {Time Err Val World : Type}.
Variable time_time : World → Time * World.
Variable str : Err → string.
Implicit Types (self : @GeminiKeyManager Time) (w : World).

Lemma eligible_lookup self index record :
  _records self !! index = Some record →
  eligible self index = negb (disabled record).
Proof. unfold eligible. by intros ->. Qed.

Lemma eligible_lt self index :
  eligible self index = true → index < length (_records self).
Proof.
  unfold eligible. destruct (_ !! _) eqn:E; [|done].
  intros _. by eapply lookup_lt_Some.
Qed.

Lemma scan_offsets_spec self w (offsets : list nat) :
  let total := length (_records self) in
  0 < total →
  scan_offsets (Err:=Err) time_time total offsets self w =
    match filter (λ index, eligible self index = true)
            ((λ offset, (_next_index self + offset) mod total) <$> offsets) with
    | [] => (Return None, self, w)
    | index :: _ =>
        let '(t, w') := time_time w in
        (Return (Some index), selected index t self, w')
    end.
Proof.
  intros total Htotal. induction offsets as [|offset offsets IH]; [done|].
  cbn [scan_offsets fmap list_fmap].
  assert ((_next_index self + offset) mod total < total) as Hlt
    by (apply Nat.mod_upper_bound; lia).
  destruct (lookup_lt_is_Some_2 (_records self) _ Hlt) as [record Hrecord].
  rewrite filter_cons, (eligible_lookup _ _ _ Hrecord).
  unfold bind at 1, get at 1. unfold bind at 1. unfold py_mod at 1.
  destruct total as [|total'] eqn:Ht; [lia|]. rewrite <-Ht in *.
  unfold ret at 1, bind at 1, getitem at 1, bind at 1, get at 1.
  rewrite Hrecord. unfold ret at 1.
  destruct (disabled record); simpl negb; case_decide; try done.
  unfold_M. destruct (time_time w) as [t w']. by rewrite Ht, <-Ht.
Qed.

Lemma _activate_next_index_spec self w :
  _activate_next_index (Err:=Err) time_time self w =
    match rotation self with
    | [] => (Return None, self, w)
    | index :: _ =>
        let '(t, w') := time_time w in
        (Return (Some index), selected index t self, w')
    end.
Proof.
  unfold _activate_next_index, rotation, cyclic_order.
  unfold bind at 1, len_records at 1, bind at 1, get at 1, ret at 1.
  destruct (decide (0 < length (_records self))) as [Hpos|Hzero].
  - by apply scan_offsets_spec.
  - by replace (length (_records self)) with 0 by lia.
Qed.

Lemma _record_failure_spec index error self w :
  index < length (_records self) →
  _record_failure (Err:=Err) time_time str index error self w =
    let '(t, w') := time_time w in (Return (), failed_at str index t error self, w').
Proof.
  intros [record Hrecord]%lookup_lt_is_Some_2.
  unfold _record_failure. unfold_M. destruct (time_time w) as [t w'].
  rewrite Hrecord. simpl. unfold failed_at. by case_decide.
Qed.

Lemma _record_failure_out_of_range index error self w :
  length (_records self) ≤ index →
  _record_failure (Err:=Err) time_time str index error self w =
    let '(t, w') := time_time w in (Raise IndexError, self, w').
Proof.
  intros Hge%lookup_ge_None_2.
  unfold _record_failure. unfold_M. destruct (time_time w) as [t w'].
  by rewrite Hge.
Qed.

Lemma unmark_previous_length index self :
  length (_records (unmark_previous index self)) = length (_records self).
Proof.
  unfold unmark_previous. simpl.
  destruct (_last_used_index self); [case_decide|]; by rewrite ?length_alter.
Qed.

(** [_record_success] in every case: the clock is read, then either the
    previous holder is out of range, or the index is, or the call returns. *)
Lemma _record_success_cases index self w :
  _record_success (Err:=Err) time_time index self w =
    let '(t, w') := time_time w in
    match _last_used_index self with
    | Some previous =>
        if decide (previous ≠ index ∧ length (_records self) ≤ previous)
        then (Raise IndexError, self, w')
        else if decide (index < length (_records self))
        then (Return (), succeeded_at index t self, w')
        else (Raise IndexError, unmark_previous index self, w')
    | None =>
        if decide (index < length (_records self))
        then (Return (), succeeded_at index t self, w')
        else (Raise IndexError, unmark_previous index self, w')
    end.
Proof.
  unfold _record_success. unfold_M. destruct (time_time w) as [t w'].
  unfold succeeded_at, unmark_previous.
  destruct (_last_used_index self) as [previous|] eqn:Hprevious; simpl.
  - destruct (decide (previous ≠ index)) as [Hne|Heq]; simpl.
    + destruct (_records self !! previous) as [record|] eqn:Hrecord; simpl.
      * apply lookup_lt_Some in Hrecord as Hlt.
        rewrite decide_False by lia.
        destruct (alter unmarked previous (_records self) !! index) eqn:Hindex; simpl.
        -- apply lookup_lt_Some in Hindex. rewrite length_alter in Hindex.
           by rewrite decide_True.
        -- apply lookup_ge_None in Hindex. rewrite length_alter in Hindex.
           rewrite decide_False by lia. by rewrite ?Hprevious.
      * apply lookup_ge_None in Hrecord. by rewrite decide_True.
    + rewrite decide_False by tauto.
      destruct (_records self !! index) eqn:Hindex; simpl.
      * apply lookup_lt_Some in Hindex. by rewrite decide_True.
      * apply lookup_ge_None in Hindex. rewrite decide_False by lia.
        rewrite <-Hprevious. by destruct self.
  - destruct (_records self !! index) eqn:Hindex; simpl.
    + apply lookup_lt_Some in Hindex. by rewrite decide_True.
    + apply lookup_ge_None in Hindex. rewrite decide_False by lia.
      rewrite <-Hprevious. by destruct self.
Qed.

Lemma _record_success_spec index self w :
  index < length (_records self) →
  (∀ previous, _last_used_index self = Some previous →
     previous < length (_records self)) →
  _record_success (Err:=Err) time_time index self w =
    let '(t, w') := time_time w in (Return (), succeeded_at index t self, w').
Proof.
  intros Hindex Hprevious. rewrite _record_success_cases.
  destruct (time_time w) as [t w'].
  destruct (_last_used_index self) as [previous|] eqn:E.
  - specialize (Hprevious _ eq_refl).
    rewrite decide_False by lia. by rewrite decide_True.
  - by rewrite decide_True.
Qed.
End Bookkeeping.

(** *** Every call is a sequence of bookkeeping steps *)

Section Steps.
Context {Time Err Val World : Type}.
Variable time_time : World → Time * World.
Variable str : Err → string.
Implicit Types (self : @GeminiKeyManager Time) (w : World).
Implicit Types (fn : @Callable Err Val World).

Lemma rotation_head_eligible self index rest :
  rotation self = index :: rest → eligible self index = true.
Proof.
  intros Hrotation.
  assert (index ∈ rotation self) as Hin by (rewrite Hrotation; left).
  unfold rotation in Hin. by apply list_elem_of_filter in Hin as [? _].
Qed.

Lemma selected_length index t self :
  length (_records (selected index t self)) = length (_records self).
Proof. unfold selected. simpl. by rewrite length_alter. Qed.

Lemma failed_at_length index t error self :
  length (_records (failed_at str index t error self)) = length (_records self).
Proof. unfold failed_at. simpl. by rewrite length_alter. Qed.

Lemma succeeded_at_length index t self :
  length (_records (succeeded_at index t self)) = length (_records self).
Proof.
  unfold succeeded_at. cbn [_records].
  by rewrite length_alter, unmark_previous_length.
Qed.

Lemma key_at_selected index t self j :
  key_at (selected index t self) j = key_at self j.
Proof.
  unfold key_at, selected. simpl. rewrite list_lookup_alter.
  case_decide; [subst|done]. by destruct (_records self !! j).
Qed.

(** One turn of the loop of [run_with_key]. *)
Lemma run_loop_S fn n errors self w :
  run_loop time_time str fn (S n) errors self w =
    match rotation self with
    | [] => (Raise (exhausted errors), self, w)
    | index :: _ =>
        let '(t, w1) := time_time w in
        let '(outcome, w2) := fn (key_at self index) w1 in
        match outcome with
        | inl value =>
            bind (_record_success time_time index) (λ _, ret value)
              (selected index t self) w2
        | inr (Exception exc) =>
            bind (_record_failure time_time str index exc)
              (λ _, run_loop time_time str fn n (errors ++ [exc]))
              (selected index t self) w2
        | inr (NotException b) =>
            (Raise (Propagated b), selected index t self, w2)
        end
    end.
Proof.
  cbn [run_loop]. unfold bind at 1. rewrite _activate_next_index_spec.
  destruct (rotation self) as [|index rest] eqn:Hrotation; [done|].
  apply rotation_head_eligible in Hrotation as Heligible.
  destruct (time_time w) as [t w1].
  unfold bind at 1, getitem at 1, bind at 1, get at 1.
  assert (is_Some (_records (selected index t self) !! index)) as [record Hrecord].
  { apply lookup_lt_is_Some_2. rewrite selected_length. by apply eligible_lt. }
  rewrite Hrecord. unfold ret at 1, bind at 1, call at 1.
  replace (raw_key record) with (key_at self index).
  2:{ rewrite <-(key_at_selected index t). unfold key_at. by rewrite Hrecord. }
  destruct (fn (key_at self index) w1) as [[value|[exc|b]] w2]; done.
Qed.

Lemma steps_trans self1 self2 self3 :
  steps str self1 self2 → steps str self2 self3 → steps str self1 self3.
Proof. intros H12 H23. induction H23; eauto using @steps. Qed.

Lemma _record_success_steps index self w :
  steps str self (_record_success (Err:=Err) time_time index self w).1.2.
Proof.
  rewrite _record_success_cases. destruct (time_time w) as [t w'].
  destruct (_last_used_index self); repeat case_decide; simpl;
    eauto using @steps.
Qed.

Lemma _record_failure_steps index error self w :
  steps str self (_record_failure time_time str index error self w).1.2.
Proof.
  destruct (decide (index < length (_records self))).
  - rewrite _record_failure_spec by done. destruct (time_time w).
    simpl. eauto using @steps.
  - rewrite _record_failure_out_of_range by lia. destruct (time_time w).
    simpl. eauto using @steps.
Qed.

Lemma _activate_next_index_steps self w :
  steps str self (_activate_next_index (Err:=Err) time_time self w).1.2.
Proof.
  rewrite _activate_next_index_spec.
  destruct (rotation self) eqn:Hrotation; [apply steps_none|].
  destruct (time_time w). simpl.
  eauto using @steps, rotation_head_eligible.
Qed.

Lemma run_loop_steps fn n errors self w :
  steps str self (run_loop time_time str fn n errors self w).1.2.
Proof.
  revert errors self w. induction n as [|n IH]; intros errors self w.
  { apply steps_none. }
  rewrite run_loop_S.
  destruct (rotation self) as [|index rest] eqn:Hrotation; [apply steps_none|].
  apply rotation_head_eligible in Hrotation as Heligible.
  destruct (time_time w) as [t w1].
  destruct (fn (key_at self index) w1) as [[value|[exc|b]] w2];
    [| |simpl; eauto using @steps].
  - unfold bind.
    pose proof (_record_success_steps index (selected index t self) w2) as Hsteps.
    destruct (_record_success time_time index (selected index t self) w2)
      as [[[[]|e] self2] w3]; simpl in *;
      (eapply steps_trans; [|exact Hsteps]); eauto using @steps.
  - unfold bind.
    pose proof (_record_failure_steps index exc (selected index t self) w2) as Hsteps.
    destruct (_record_failure time_time str index exc (selected index t self) w2)
      as [[[[]|e] self2] w3]; simpl in *.
    + eapply steps_trans; [|apply IH].
      eapply steps_trans; [|exact Hsteps]. eauto using @steps.
    + eapply steps_trans; [|exact Hsteps]. eauto using @steps.
Qed.

Lemma after_steps (c : @Call Err Val World) self w : steps str self (after time_time str c self w).
Proof.
  unfold after. destruct c as [|index|index error|fn]; simpl.
  - pose proof (_activate_next_index_steps self w) as Hsteps. unfold bind.
    by destruct (_activate_next_index time_time self w) as [[[] ?] ?].
  - apply _record_success_steps.
  - apply _record_failure_steps.
  - pose proof (run_loop_steps fn (length (_records self)) [] self w) as Hsteps.
    unfold run_with_key, bind at 1, bind at 1, len_records, bind, get, ret.
    by destruct (run_loop _ _ _ _ _ _ _) as [[[] ?] ?].
Qed.
End Steps.

(** *** What the steps preserve *)

Section Invariants.
Context {Time Err Val World : Type}.
Variable time_time : World → Time * World.
Variable str : Err → string.
Implicit Types (self : @GeminiKeyManager Time) (w : World).
Implicit Types (record : @GeminiKeyRecord Time).

(** A relation between the old and the new version of a record that the
    four writes respect holds between the records before and after any
    steps. *)
Lemma steps_records (R : relation (@GeminiKeyRecord Time)) self self' :
  (∀ record, R record record) →
  (∀ r1 r2 r3, R r1 r2 → R r2 r3 → R r1 r3) →
  (∀ t record, R record (activated t record)) →
  (∀ t error record, R record (failed_with str t error record)) →
  (∀ record, R record (unmarked record)) →
  (∀ t record, R record (succeeded t record)) →
  steps str self self' →
  Forall2 R (_records self) (_records self').
Proof.
  intros Hrefl Htrans Hactivated Hfailed Hunmarked Hsucceeded Hsteps.
  assert (∀ f i l, (∀ record, R record (f record)) →
    Forall2 R (_records self) l → Forall2 R (_records self) (alter f i l)) as Halter.
  { intros f i l Hf Hl. apply Forall2_alter_r; [done|].
    intros x y _ _ Hxy. by eapply Htrans. }
  induction Hsteps as [|self' index t _ IH|self' index t error _ IH
    |self' index _ IH|self' index t _ IH _].
  - by apply Forall_Forall2_diag, Forall_true.
  - by apply Halter.
  - by apply Halter.
  - unfold unmark_previous. cbn [_records].
    destruct (_last_used_index self'); [case_decide|]; auto.
  - unfold succeeded_at, unmark_previous. cbn [_records].
    apply Halter; [done|].
    destruct (_last_used_index self'); [case_decide|]; auto.
Qed.

Lemma steps_length self self' :
  steps str self self' → length (_records self') = length (_records self).
Proof.
  intros Hsteps. symmetry. eapply Forall2_length.
  by apply (steps_records (λ _ _, True)).
Qed.

(** No step touches [raw_key] or [masked_key]. *)
Lemma steps_keys self self' index record' :
  steps str self self' →
  _records self' !! index = Some record' →
  ∃ record, _records self !! index = Some record
    ∧ raw_key record' = raw_key record ∧ masked_key record' = masked_key record.
Proof.
  intros Hsteps Hrecord'.
  eapply (steps_records
    (λ r r', raw_key r' = raw_key r ∧ masked_key r' = masked_key r)) in Hsteps;
    [|done| |done..].
  - destruct (Forall2_lookup_r _ _ _ _ _ Hsteps Hrecord') as (record & ? & ?). eauto.
  - intros r1 r2 r3 [<- <-] [<- <-]. done.
Qed.

(** No step resets [disabled]. *)
Lemma steps_disabled self self' index record :
  steps str self self' →
  _records self !! index = Some record → disabled record = true →
  ∃ record', _records self' !! index = Some record' ∧ disabled record' = true.
Proof.
  intros Hsteps Hrecord Hdisabled.
  eapply (steps_records (λ r r', disabled r = true → disabled r' = true)) in Hsteps;
    [|done| |done..].
  - destruct (Forall2_lookup_l _ _ _ _ _ Hsteps Hrecord) as (record' & ? & ?). eauto.
  - intros r1 r2 r3 H12 H23 ?. auto.
Qed.

(** The counters only grow. *)
Lemma steps_counters self self' index record :
  steps str self self' →
  _records self !! index = Some record →
  ∃ record', _records self' !! index = Some record'
    ∧ success_count record ≤ success_count record'
    ∧ failure_count record ≤ failure_count record'.
Proof.
  intros Hsteps Hrecord.
  eapply (steps_records (λ r r', success_count r ≤ success_count r'
      ∧ failure_count r ≤ failure_count r')) in Hsteps.
  - destruct (Forall2_lookup_l _ _ _ _ _ Hsteps Hrecord) as (record' & ? & ?). eauto.
  - done.
  - intros r1 r2 r3 [??] [??]. lia.
  - done.
  - intros; simpl; lia.
  - done.
  - intros; simpl; lia.
Qed.

Lemma steps_well_formed self self' :
  steps str self self' → well_formed self → well_formed self'.
Proof.
  intros Hsteps Hwf.
  induction Hsteps as [|self' index t _ IH
    |self' index t error _ IH
    |self' index _ IH|self' index t _ IH Hindex]; [done|..];
    destruct IH as [Hnext Hprevious]; split.
  - rewrite selected_length. cbn [selected _next_index].
    apply Nat.mod_upper_bound. lia.
  - intros previous. rewrite selected_length. apply Hprevious.
  - by rewrite failed_at_length.
  - intros previous. rewrite failed_at_length. cbn [failed_at _last_used_index].
    case_decide; [done|]. apply Hprevious.
  - by rewrite unmark_previous_length.
  - intros previous. rewrite unmark_previous_length. apply Hprevious.
  - by rewrite succeeded_at_length.
  - intros previous. rewrite succeeded_at_length. cbn [succeeded_at _last_used_index].
    by intros [= <-].
Qed.

Lemma unmark_previous_holder index self i record :
  marked_is_last self →
  _records (unmark_previous index self) !! i = Some record →
  last_used record = true →
  i = index.
Proof.
  intros Hmarked. unfold unmark_previous. cbn [_records].
  destruct (_last_used_index self) as [previous|] eqn:Hprevious.
  - case_decide as Hne.
    + rewrite list_lookup_alter. case_decide as Hi.
      * subst i. destruct (_records self !! previous); [|done].
        by intros [= <-].
      * intros Hrecord Hlast. specialize (Hmarked _ _ Hrecord Hlast). congruence.
    + intros Hrecord Hlast. specialize (Hmarked _ _ Hrecord Hlast).
      congruence.
  - intros Hrecord Hlast. specialize (Hmarked _ _ Hrecord Hlast). congruence.
Qed.

Lemma steps_marked_is_last self self' :
  steps str self self' → marked_is_last self → marked_is_last self'.
Proof.
  intros Hsteps Hmarked.
  induction Hsteps as [|self' index t _ IH
    |self' index t error _ IH
    |self' index _ IH|self' index t _ IH Hindex]; [done|..];
    intros i record.
  - unfold selected. cbn [_records _last_used_index].
    rewrite list_lookup_alter. case_decide; [subst i|by apply IH].
    destruct (_records self' !! index) as [record0|] eqn:Hrecord0; [|done].
    intros [= <-] Hlast. by apply (IH _ _ Hrecord0).
  - unfold failed_at. cbn [_records _last_used_index].
    rewrite list_lookup_alter. case_decide as Hi.
    + subst i. destruct (_records self' !! index); [|done]. by intros [= <-].
    + intros Hrecord Hlast. specialize (IH _ _ Hrecord Hlast).
      rewrite decide_False by congruence. done.
  - intros Hrecord Hlast.
    pose proof (unmark_previous_holder _ _ _ _ IH Hrecord Hlast) as ->.
    revert Hrecord. unfold unmark_previous. cbn [_records _last_used_index].
    destruct (_last_used_index self') as [previous|] eqn:Hprevious.
    + case_decide as Hne; [|by subst].
      rewrite list_lookup_alter_ne by done. intros Hrecord.
      specialize (IH _ _ Hrecord Hlast). congruence.
    + intros Hrecord. specialize (IH _ _ Hrecord Hlast). congruence.
  - unfold succeeded_at. cbn [_records _last_used_index].
    rewrite list_lookup_alter. case_decide as Hi; [by subst|].
    intros Hrecord Hlast.
    by pose proof (unmark_previous_holder _ _ _ _ IH Hrecord Hlast).
Qed.
End Invariants.

(** *** The managers a client can reach *)

Section Reachable.
Context {Time Err Val World : Type}.
Variable time_time : World → Time * World.
Variable str : Err → string.
Variable isoformat : Time → string.
Implicit Types (self : @GeminiKeyManager Time) (w : World).
Implicit Types (record : @GeminiKeyRecord Time).
Local Abbreviation reachable := (reachable (Val:=Val) time_time str).

Lemma __init___Return keys self :
  __init__ (Err:=Err) keys = Return self →
  keys ≠ [] ∧ self = {| _records := new_record <$> keys; _next_index := 0;
                        _last_used_index := None |}.
Proof. destruct keys; [done|]. by intros [= <-]. Qed.

Lemma reachable_steps keys self :
  reachable keys self →
  ∃ self0, __init__ (Err:=Err) keys = Return self0 ∧ steps str self0 self.
Proof.
  induction 1 as [self Hinit|self c w _ (self0 & Hinit & Hsteps)].
  - exists self. split; [done|apply steps_none].
  - exists self0. split; [done|].
    eapply steps_trans; [done|apply after_steps].
Qed.

Lemma reachable_after_calls keys (calls : list (@Call Err Val World * World)) self :
  reachable keys self → reachable keys (after_calls time_time str calls self).
Proof.
  revert self. induction calls as [|[c w] calls IH]; intros self Hself; [done|].
  apply IH. by apply reachable_call.
Qed.

Lemma after_calls_steps (calls : list (@Call Err Val World * World)) self :
  steps str self (after_calls time_time str calls self).
Proof.
  revert self. induction calls as [|[c w] calls IH]; intros self.
  - apply steps_none.
  - eapply steps_trans; [apply (after_steps time_time str c self w)|apply IH].
Qed.

Lemma reachable_well_formed keys self : reachable keys self → well_formed self.
Proof.
  intros (self0 & Hinit & Hsteps)%reachable_steps.
  eapply steps_well_formed; [done|].
  apply __init___Return in Hinit as [Hkeys ->]. split; simpl.
  - rewrite length_fmap. destruct keys; [done|simpl; lia].
  - done.
Qed.

Lemma reachable_marked_is_last keys self : reachable keys self → marked_is_last self.
Proof.
  intros (self0 & Hinit & Hsteps)%reachable_steps.
  eapply steps_marked_is_last; [done|].
  apply __init___Return in Hinit as [Hkeys ->].
  intros index record. simpl. rewrite list_lookup_fmap.
  destruct (keys !! index); [|done]. by intros [= <-].
Qed.

(** The records stay those of the keys the manager was built from. *)
Lemma reachable_keys keys self index record :
  reachable keys self →
  _records self !! index = Some record →
  keys !! index = Some (raw_key record)
  ∧ masked_key record = _mask_key (raw_key record).
Proof.
  intros (self0 & Hinit & Hsteps)%reachable_steps Hrecord.
  destruct (steps_keys str _ _ _ _ Hsteps Hrecord) as (record0 & Hrecord0 & -> & ->).
  apply __init___Return in Hinit as [Hkeys ->].
  revert Hrecord0. simpl. rewrite list_lookup_fmap.
  destruct (keys !! index); [|done]. by intros [= <-].
Qed.

Lemma reachable_length keys self :
  reachable keys self → length (_records self) = length keys.
Proof.
  intros (self0 & Hinit & Hsteps)%reachable_steps.
  rewrite (steps_length str _ _ Hsteps).
  apply __init___Return in Hinit as [Hkeys ->]. simpl. by rewrite length_fmap.
Qed.

(** C5. In every manager reachable from construction by calls of
    [_activate_next_index], [_record_success], [_record_failure] and
    [run_with_key], with any arguments, at most one record has
    [last_used = True], and when one has, [_last_used_index] is its index. *)
Theorem single_last_used_holder keys self :
  reachable keys self →
  (∀ i j record_i record_j,
     _records self !! i = Some record_i → _records self !! j = Some record_j →
     last_used record_i = true → last_used record_j = true → i = j)
  ∧ (∀ i record,
     _records self !! i = Some record → last_used record = true →
     _last_used_index self = Some i).
Proof.
  intros Hmarked%reachable_marked_is_last. split; [|done].
  intros i j record_i record_j Hi Hj Hlast_i Hlast_j.
  pose proof (Hmarked _ _ Hi Hlast_i). pose proof (Hmarked _ _ Hj Hlast_j).
  congruence.
Qed.

(** *** Selection among disabled records *)

Lemma rotation_nil_all_disabled self :
  (∀ record, record ∈ _records self → disabled record = true) →
  rotation self = [].
Proof.
  intros Hall. destruct (rotation self) as [|index rest] eqn:Hrotation; [done|].
  apply rotation_head_eligible in Hrotation. unfold eligible in Hrotation.
  destruct (_records self !! index) as [record|] eqn:Hrecord; [|done].
  apply list_elem_of_lookup_2 in Hrecord. apply Hall in Hrecord.
  by rewrite Hrecord in Hrotation.
Qed.

(** C9. When every record is disabled, [_activate_next_index] returns [None]
    and changes nothing: not the cursor, not a record, and the clock is not
    read. *)
Theorem no_eligible_key_frame self w :
  (∀ record, record ∈ _records self → disabled record = true) →
  _activate_next_index (Err:=Err) time_time self w = (Return None, self, w).
Proof.
  intros Hall. rewrite _activate_next_index_spec.
  by rewrite rotation_nil_all_disabled.
Qed.

(** *** Counting the available keys *)

Lemma available_key_count_length self :
  available_key_count self
  = length (filter (λ record, disabled record = false) (_records self)).
Proof.
  unfold available_key_count. rewrite sum_list_fmap_const. lia.
Qed.

(** C7. [available_key_count()] is the number of entries of
    [get_statuses()] whose [disabled] is false, in every state of the
    manager. *)
Theorem available_count_matches_statuses self :
  available_key_count self
  = length (filter (λ entry, disabled' entry = false) (get_statuses isoformat self)).
Proof.
  rewrite available_key_count_length. unfold get_statuses.
  set (entry_of := λ idx record, {| index := idx; maskedKey := _ |}).
  assert (∀ idx record, disabled' (entry_of idx record) = disabled record)
    as Hentry by done.
  clearbody entry_of. revert entry_of Hentry.
  induction (_records self) as [|record records IH]; intros entry_of Hentry; [done|].
  cbn [imap]. rewrite !filter_cons, Hentry.
  case_decide; cbn [length]; rewrite (IH (entry_of ∘ S)); auto;
    intros idx record0; apply Hentry.
Qed.
End Reachable.

(** *** Masked keys *)

Section Masking.
Context {Time Err Val World : Type}.
Variable time_time : World → Time * World.
Variable str : Err → string.
Variable isoformat : Time → string.
Implicit Types (self : @GeminiKeyManager Time) (key : string).

Lemma _mask_key_boundary key :
  _mask_key key
  = (boundary key).1 +:+ (if decide (Py.len key ≤ 10) then "***" else "...")
      +:+ (boundary key).2.
Proof. unfold _mask_key, boundary. by case_decide. Qed.

(** C6. The masked key of every entry of [get_statuses()], in every manager
    reachable from [GeminiKeyManager(keys)], is the first 2 characters of
    its key, ["***"] and the last 2 when the key has at most 10 characters,
    and the first 6, ["..."] and the last 4 otherwise; and two keys of the
    same length class with the same boundary characters have the same
    masked key, so nothing else of the key shows. *)
Theorem masked_identity keys self :
  reachable (Val:=Val) time_time str keys self →
  (∀ i entry, get_statuses isoformat self !! i = Some entry →
     ∃ key, keys !! i = Some key
       ∧ maskedKey entry
         = if decide (Py.len key ≤ 10)
           then Py.take 2 key +:+ "***" +:+ Py.last 2 key
           else Py.take 6 key +:+ "..." +:+ Py.last 4 key)
  ∧ (∀ key1 key2,
       (Py.len key1 ≤ 10 ↔ Py.len key2 ≤ 10) →
       boundary key1 = boundary key2 →
       _mask_key key1 = _mask_key key2).
Proof.
  intros Hreachable. split.
  - intros i entry. unfold get_statuses. rewrite list_lookup_imap.
    destruct (_records self !! i) as [record|] eqn:Hrecord; [|done].
    intros [= <-]. cbn [maskedKey].
    destruct (reachable_keys _ _ _ _ _ _ Hreachable Hrecord) as [Hkey ->].
    by exists (raw_key record).
  - intros key1 key2 Hclass Hboundary.
    rewrite !_mask_key_boundary, Hboundary.
    by rewrite (decide_ext _ _ _ _ Hclass).
Qed.

(** C10. For a key of at most 4 characters the two slices of [_mask_key]
    cover the key: the masked key is the first 2, ["***"] and the last 2
    characters, every position of the key is in one of the two slices, and
    the key is read back from its masked form and its length. *)
Theorem short_secret_disclosure key :
  Py.len key ≤ 4 →
  _mask_key key = Py.take 2 key +:+ "***" +:+ Py.last 2 key
  ∧ (∀ i, i < Py.len key → i < 2 ∨ Py.len key - 2 ≤ i)
  ∧ key = Py.take 2 key
          +:+ Py.drop (Py.len (Py.take 2 key) + Py.len (Py.last 2 key) - Py.len key)
                (Py.last 2 key)
  ∧ unmask (Py.len key) (_mask_key key) = key.
Proof.
  intros Hlen. split; [|split; [intros; lia|]].
  - unfold _mask_key. rewrite decide_True by lia. done.
  - unfold _mask_key. rewrite decide_True by lia.
    destruct key as [|a [|b [|c [|d [|e key]]]]]; try done.
    simpl in Hlen. lia.
Qed.
End Masking.

(** *** Disabling a key *)

Section Disablement.
Context {Time Err Val World : Type}.
Variable time_time : World → Time * World.
Variable str : Err → string.
Implicit Types (self : @GeminiKeyManager Time) (w : World).
Implicit Types (record : @GeminiKeyRecord Time).

Lemma filter_alter_same {A} (P : A → Prop) `{!∀ x, Decision (P x)} f i (l : list A) :
  (∀ x, P (f x) ↔ P x) →
  length (filter P (alter f i l)) = length (filter P l).
Proof.
  intros Hf. revert i. induction l as [|x l IH]; intros [|i]; [done..| |].
  - change (alter f 0 (x :: l)) with (f x :: l).
    rewrite !filter_cons, (decide_ext _ _ _ _ (Hf x)). by case_decide.
  - change (alter f (S i) (x :: l)) with (x :: alter f i l).
    rewrite !filter_cons. case_decide; simpl; by rewrite IH.
Qed.

Lemma filter_alter_drop {A} (P : A → Prop) `{!∀ x, Decision (P x)} f i (l : list A) x :
  l !! i = Some x → P x → ¬ P (f x) →
  length (filter P (alter f i l)) + 1 = length (filter P l).
Proof.
  revert i. induction l as [|y l IH]; intros [|i]; [done..| |].
  - intros [= ->] Hx Hfx. change (alter f 0 (x :: l)) with (f x :: l).
    rewrite !filter_cons, decide_False, decide_True by done. simpl. lia.
  - intros Hi Hx Hfx. change (alter f (S i) (y :: l)) with (y :: alter f i l).
    rewrite !filter_cons.
    case_decide; simpl; rewrite <-(IH i) by done; lia.
Qed.

Lemma available_key_count_selected index t self :
  available_key_count (selected index t self) = available_key_count self.
Proof.
  rewrite !available_key_count_length. unfold selected. cbn [_records].
  by apply filter_alter_same.
Qed.

Lemma available_key_count_succeeded_at index t self :
  available_key_count (succeeded_at index t self) = available_key_count self.
Proof.
  rewrite !available_key_count_length. unfold succeeded_at, unmark_previous.
  cbn [_records]. rewrite filter_alter_same by done.
  destruct (_last_used_index self); [case_decide|]; [|done..].
  by apply filter_alter_same.
Qed.

Lemma available_key_count_failed_at index t error self :
  eligible self index = true →
  available_key_count (failed_at str index t error self) + 1
  = available_key_count self.
Proof.
  intros Heligible. rewrite !available_key_count_length.
  unfold failed_at. cbn [_records]. unfold eligible in Heligible.
  destruct (_records self !! index) as [record|] eqn:Hrecord; [|done].
  eapply filter_alter_drop; [done| |done].
  by destruct (disabled record).
Qed.

Lemma eligible_selected index t self j :
  eligible (selected index t self) j = eligible self j.
Proof.
  unfold eligible, selected. cbn [_records]. rewrite list_lookup_alter.
  case_decide; [subst|done]. by destruct (_records self !! j).
Qed.


End Disablement.

(** *** The cyclic order *)

Section CyclicOrder.
Implicit Types (c n k : nat).

Lemma filter_cons_inv {A} (P : A → Prop) `{!∀ x, Decision (P x)} (l : list A) x rest :
  filter P l = x :: rest →
  ∃ l1 l2, l = l1 ++ x :: l2 ∧ filter P l1 = [] ∧ P x ∧ filter P l2 = rest.
Proof.
  induction l as [|y l IH]; [done|]. rewrite filter_cons. case_decide as Hy.
  - intros [= -> <-]. by exists [], l.
  - intros (l1 & l2 & -> & Hl1 & Hx & Hl2)%IH. exists (y :: l1), l2.
    by rewrite filter_cons_False.
Qed.

Lemma fmap_seq_ext {B} (f g : nat → B) a b m :
  (∀ j, j < m → f (a + j) = g (b + j)) →
  f <$> seq a m = g <$> seq b m.
Proof.
  revert a b. induction m as [|m IH]; intros a b Hfg; [done|]. cbn. f_equal.
  - specialize (Hfg 0). rewrite !Nat.add_0_r in Hfg. apply Hfg. lia.
  - apply IH. intros j Hj. specialize (Hfg (S j)).
    rewrite <-!Nat.add_succ_comm in Hfg. apply Hfg. lia.
Qed.

Lemma cyclic_order_length c n : length (cyclic_order c n) = n.
Proof. unfold cyclic_order. by rewrite length_fmap, length_seq. Qed.

Lemma cyclic_order_lt c n i : i ∈ cyclic_order c n → i < n.
Proof.
  unfold cyclic_order. intros (k & -> & Hk)%list_elem_of_fmap.
  apply elem_of_seq in Hk. apply Nat.mod_upper_bound. lia.
Qed.

Lemma seq_split_at k n : k < n → seq 0 n = seq 0 k ++ k :: seq (S k) (n - S k).
Proof.
  intros Hk. replace n with (k + S (n - S k)) at 1 by lia. by rewrite seq_app.
Qed.

Lemma seq_split_end k n :
  k < n → seq 0 n = seq 0 (n - S k) ++ seq (n - S k) k ++ [n - 1].
Proof.
  intros Hk. replace n with ((n - S k) + (k + 1)) at 1 by lia.
  rewrite !seq_app. cbn. do 3 f_equal. lia.
Qed.

Lemma cyclic_order_split c n k :
  k < n →
  cyclic_order c n
  = ((λ j, (c + j) mod n) <$> seq 0 k)
    ++ (c + k) mod n :: ((λ j, (c + j) mod n) <$> seq (S k) (n - S k)).
Proof.
  intros Hk. unfold cyclic_order. by rewrite (seq_split_at k n), fmap_app.
Qed.

Lemma cyclic_order_shift c n k :
  k < n →
  cyclic_order (((c + k) mod n + 1) mod n) n
  = ((λ j, (c + j) mod n) <$> seq (S k) (n - S k))
    ++ ((λ j, (c + j) mod n) <$> seq 0 k) ++ [(c + k) mod n].
Proof.
  intros Hk. unfold cyclic_order.
  assert (∀ x, (((c + k) mod n + 1) mod n + x) mod n = (c + k + 1 + x) mod n) as Hidx.
  { intros x. by rewrite Nat.Div0.add_mod_idemp_l, <-Nat.add_assoc,
      Nat.Div0.add_mod_idemp_l, Nat.add_assoc. }
  rewrite (seq_split_end k n), !fmap_app by done.
  cbn [fmap list_fmap]. f_equal; [|f_equal].
  - apply fmap_seq_ext. intros j Hj. rewrite Hidx. f_equal. lia.
  - apply fmap_seq_ext. intros j Hj. rewrite Hidx.
    replace (c + k + 1 + (n - S k + j)) with (c + (0 + j) + 1 * n) by lia.
    by rewrite Nat.Div0.mod_add.
  - rewrite Hidx. f_equal.
    replace (c + k + 1 + (n - 1)) with (c + k + 1 * n) by lia.
    by rewrite Nat.Div0.mod_add.
Qed.

Lemma cyclic_order_NoDup c n : NoDup (cyclic_order c n).
Proof.
  unfold cyclic_order. apply NoDup_fmap_2_strong; [|apply NoDup_seq].
  intros x y Hx%elem_of_seq Hy%elem_of_seq Hxy.
  destruct (decide (n = 0)) as [->|Hn]; [lia|].
  pose proof (Nat.div_mod_eq (c + x) n) as Hqx.
  pose proof (Nat.div_mod_eq (c + y) n) as Hqy.
  rewrite Hxy in Hqx.
  generalize dependent ((c + x) `div` n). generalize dependent ((c + y) `div` n).
  intros qy Hqy qx Hqx.
  destruct (lt_eq_lt_dec qx qy) as [[Hlt| ->]|Hlt]; [|lia|].
  - assert (n * S qx ≤ n * qy) by (apply Nat.mul_le_mono_l; lia). lia.
  - assert (n * S qy ≤ n * qx) by (apply Nat.mul_le_mono_l; lia). lia.
Qed.

(** The cyclic order visits every index exactly once. *)
Lemma cyclic_order_Permutation c n : cyclic_order c n ≡ₚ seq 0 n.
Proof.
  apply submseteq_length_Permutation.
  - apply NoDup_submseteq; [apply cyclic_order_NoDup|].
    intros i Hi%cyclic_order_lt. apply elem_of_seq. lia.
  - by rewrite cyclic_order_length, length_seq.
Qed.

(** Moving the start of the cyclic order past the first chosen index moves
    that index to the end of the chosen ones. *)
Lemma filter_cyclic_order_next (E : nat → Prop) `{!∀ i, Decision (E i)} c n i rest :
  filter E (cyclic_order c n) = i :: rest →
  filter E (cyclic_order ((i + 1) mod n) n) = rest ++ [i].
Proof.
  intros (l1 & l2 & Hsplit & Hl1 & Hi & Hl2)%filter_cons_inv.
  assert (length l1 < n) as Hk.
  { rewrite <-(cyclic_order_length c n), Hsplit, length_app. simpl. lia. }
  rewrite (cyclic_order_split c n (length l1)) in Hsplit by done.
  apply app_inj_1 in Hsplit as [Hl1' [= Hi' Hl2']].
  2:{ by rewrite length_fmap, length_seq. }
  rewrite <-Hi', cyclic_order_shift by done.
  rewrite !filter_app, Hl2', Hl2, Hl1', Hl1, Hi'.
  by rewrite filter_cons_True.
Qed.
End CyclicOrder.

(** *** The rotation of a manager *)

Section Rotation.
Context {Time Err Val World : Type}.
Variable time_time : World → Time * World.
Variable str : Err → string.
Implicit Types (self : @GeminiKeyManager Time) (w : World).
Implicit Types (fn : @Callable Err Val World).

Lemma rotation_NoDup self : NoDup (rotation self).
Proof. apply NoDup_filter, cyclic_order_NoDup. Qed.

Lemma rotation_lt self index :
  index ∈ rotation self → index < length (_records self).
Proof.
  unfold rotation. intros [Heligible _]%list_elem_of_filter.
  by apply eligible_lt.
Qed.

Lemma rotation_selected self index rest t :
  rotation self = index :: rest →
  rotation (selected index t self) = rest ++ [index].
Proof.
  intros Hrotation. unfold rotation. rewrite selected_length.
  cbn [selected _next_index].
  rewrite <-(filter_cyclic_order_next _ _ _ _ _ Hrotation).
  apply list_filter_iff. intros j. by rewrite eligible_selected.
Qed.

Lemma eligible_failed_at index t error self j :
  eligible (failed_at str index t error self) j
  = eligible self j && bool_decide (j ≠ index).
Proof.
  unfold eligible, failed_at. cbn [_records]. rewrite list_lookup_alter.
  case_decide as Hj.
  - subst j. rewrite bool_decide_false by auto.
    destruct (_records self !! index); [|done]. simpl. by rewrite andb_false_r.
  - rewrite bool_decide_true by auto. by rewrite andb_true_r.
Qed.

Lemma rotation_failed_at self index t error :
  rotation (failed_at str index t error self)
  = filter (λ j, j ≠ index) (rotation self).
Proof.
  unfold rotation. rewrite failed_at_length. cbn [failed_at _next_index].
  rewrite list_filter_filter. apply list_filter_iff. intros j.
  rewrite eligible_failed_at, andb_true_iff, bool_decide_eq_true. tauto.
Qed.

Lemma eligible_succeeded_at index t self j :
  eligible (succeeded_at index t self) j = eligible self j.
Proof.
  unfold eligible, succeeded_at, unmark_previous. cbn [_records].
  rewrite list_lookup_alter.
  assert (∀ l : list (@GeminiKeyRecord Time),
    match (match _last_used_index self with
           | Some previous =>
               if decide (previous ≠ index) then alter unmarked previous l else l
           | None => l
           end) !! j with
    | Some record => negb (disabled record)
    | None => false
    end = match l !! j with
          | Some record => negb (disabled record)
          | None => false
          end) as Hunmark.
  { intros l. destruct (_last_used_index self) as [previous|]; [|done].
    case_decide; [|done]. rewrite list_lookup_alter.
    case_decide; [subst|done]. by destruct (l !! j). }
  case_decide; [subst j|apply Hunmark].
  rewrite <-Hunmark.
  by destruct (_ !! index).
Qed.

Lemma rotation_succeeded_at self index t :
  rotation (succeeded_at index t self) = rotation self.
Proof.
  unfold rotation. rewrite succeeded_at_length.
  cbn [succeeded_at _next_index].
  apply list_filter_iff. intros j. by rewrite eligible_succeeded_at.
Qed.

(** After a key was selected and failed, the rotation is what it was without
    that key. *)
Lemma rotation_failed_selected self index rest t t' error :
  rotation self = index :: rest →
  rotation (failed_at str index t' error (selected index t self)) = rest.
Proof.
  intros Hrotation. rewrite rotation_failed_at, (rotation_selected _ _ rest) by done.
  pose proof (rotation_NoDup self) as Hnodup. rewrite Hrotation in Hnodup.
  apply NoDup_cons in Hnodup as [Hindex _].
  rewrite filter_app, filter_cons_False, filter_nil, app_nil_r by auto.
  clear Hrotation. induction rest as [|j rest IH]; [done|].
  rewrite not_elem_of_cons in Hindex. destruct Hindex as [Hne Hindex].
  rewrite filter_cons_True by auto. f_equal. auto.
Qed.

(** The loop of [run_with_key] tries the keys of the rotation in order. *)
Lemma run_loop_failover fn n errors self w :
  well_formed self →
  length (rotation self) ≤ n →
  run_loop time_time str fn n errors self w
  = failover time_time str fn (rotation self) errors self w.
Proof.
  revert errors self w. induction n as [|n IH]; intros errors self w Hwf Hlen.
  { destruct (rotation self); [done|simpl in Hlen; lia]. }
  rewrite run_loop_S.
  destruct (rotation self) as [|index rest] eqn:Hrotation; [done|].
  cbn [failover].
  assert (eligible self index = true) as Heligible
    by by eapply rotation_head_eligible.
  destruct (time_time w) as [t w1].
  destruct (fn (key_at self index) w1) as [[value|[exc|b]] w2]; [| |done].
  - assert (steps str self (selected index t self)) as Hsteps
      by apply steps_select, steps_none.
    pose proof (steps_well_formed _ _ _ Hsteps Hwf) as [_ Hprevious].
    unfold bind. rewrite _record_success_spec; [|..|done].
    2:{ rewrite selected_length. by apply eligible_lt. }
    by destruct (time_time w2) as [t' w3].
  - unfold bind. rewrite _record_failure_spec.
    2:{ rewrite selected_length. by apply eligible_lt. }
    destruct (time_time w2) as [t' w3].
    rewrite IH.
    + by rewrite (rotation_failed_selected _ _ rest).
    + eapply steps_well_formed; [|exact Hwf].
      apply steps_failure, steps_select, steps_none.
    + rewrite (rotation_failed_selected _ _ rest) by done. simpl in Hlen. lia.
Qed.

Lemma rotation_length self : length (rotation self) ≤ length (_records self).
Proof.
  unfold rotation. etrans; [apply length_filter|].
  by rewrite cyclic_order_length.
Qed.

(** [run_with_key] is the failover over the rotation. *)
Lemma run_with_key_failover fn self w :
  well_formed self →
  run_with_key time_time str fn self w
  = failover time_time str fn (rotation self) [] self w.
Proof.
  intros Hwf. unfold run_with_key, bind at 1, len_records, bind, get, ret.
  apply run_loop_failover; [done|apply rotation_length].
Qed.
End Rotation.

(** *** The attempts of a run *)

Section Attempts.
Context {Time Err Val World : Type}.
Variable time_time : World → Time * World.
Variable str : Err → string.
Implicit Types (self : @GeminiKeyManager Time) (w : World).
Implicit Types (fn : @Callable Err Val World).
Implicit Types (log attempts : list (@Attempt Err Val)).

Lemma key_at_steps self self' j :
  steps str self self' → key_at self' j = key_at self j.
Proof.
  intros Hsteps. unfold key_at.
  destruct (_records self' !! j) as [record'|] eqn:Hrecord'.
  - destruct (steps_keys _ _ _ _ _ Hsteps Hrecord') as (record & -> & Hraw & _).
    done.
  - apply lookup_ge_None in Hrecord'. rewrite (steps_length _ _ _ Hsteps) in Hrecord'.
    apply lookup_ge_None in Hrecord'. by rewrite Hrecord'.
Qed.

Lemma failover_steps fn indices errors self w :
  (∀ index, index ∈ indices → index < length (_records self)) →
  steps str self (failover time_time str fn indices errors self w).1.2.
Proof.
  revert errors self w.
  induction indices as [|index indices IH]; intros errors self w Hindices.
  { apply steps_none. }
  cbn [failover]. destruct (time_time w) as [t w1].
  destruct (fn (key_at self index) w1) as [[value|[exc|b]] w2].
  - destruct (time_time w2) as [t' w3]. simpl.
    apply steps_success; [apply steps_select, steps_none|].
    rewrite selected_length. apply Hindices. left.
  - destruct (time_time w2) as [t' w3].
    eapply steps_trans; [apply steps_failure, steps_select, steps_none|].
    apply IH. intros j Hj. rewrite failed_at_length, selected_length.
    apply Hindices. by right.
  - simpl. apply steps_select, steps_none.
Qed.




Lemma Forall2_failures log errors :
  Forall2 (λ (a : @Attempt Err Val) exc, a.2 = inr (Exception exc)) log errors →
  errors = failures log ∧ Forall is_failure log.
Proof.
  induction 1 as [|[key outcome] exc log errors Hexc _ [-> IH]]; [done|].
  cbn in Hexc. subst outcome. split; [done|]. by constructor.
Qed.

(** The failover with the callable recorded: it is the failover, and the
    log gains one attempt for each index tried. *)
Lemma failover_recording fn indices errors self w log0 :
  NoDup indices →
  (∀ index, index ∈ indices → eligible self index = true) →
  ∃ r self' w' attempts,
    failover (recording_time time_time) str (recording fn) indices errors self (w, log0)
    = (r, self', (w', log0 ++ attempts))
    ∧ failover time_time str fn indices errors self w = (r, self', w')
    ∧ attempts.*1 = key_at self <$> take (length attempts) indices
    ∧ (∀ k key exc, attempts !! k = Some (key, inr (Exception exc)) →
         ∃ index record, indices !! k = Some index
           ∧ _records self' !! index = Some record ∧ disabled record = true)
    ∧ match r with
      | Return value =>
          ∃ fails index record,
            attempts = fails ++ [(key_at self index, inl value)]
            ∧ Forall is_failure fails
            ∧ indices !! length fails = Some index
            ∧ _last_used_index self' = Some index
            ∧ _records self' !! index = Some record
            ∧ status record = healthy ∧ last_used record = true
      | Raise e =>
          (e = exhausted (errors ++ failures attempts)
           ∧ Forall is_failure attempts
           ∧ length attempts = length indices)
          ∨ (∃ fails index record b,
               e = Propagated b
               ∧ attempts = fails ++ [(key_at self index, inr (NotException b))]
               ∧ Forall is_failure fails
               ∧ indices !! length fails = Some index
               ∧ _records self' !! index = Some record
               ∧ status record = active ∧ disabled record = false)
      end.
Proof.
  revert errors self w log0.
  induction indices as [|index indices IH]; intros errors self w log0 Hnodup Hindices.
  { exists (Raise (exhausted errors)), self, w, []. cbn.
    rewrite !app_nil_r. split; [done|]. split; [done|]. split; [done|].
    split; [done|]. left. by repeat split. }
  apply NoDup_cons in Hnodup as [Hfresh Hnodup].
  assert (eligible self index = true) as Heligible by (apply Hindices; left).
  assert (index < length (_records self)) as Hindex by by apply eligible_lt.
  cbn [failover]. unfold recording_time at 1, recording at 1.
  destruct (time_time w) as [t w1].
  destruct (fn (key_at self index) w1) as [[value|[exc|b]] w2] eqn:Hfn.
  - unfold recording_time at 1. destruct (time_time w2) as [t' w3].
    destruct (lookup_lt_is_Some_2 (_records (unmark_previous index (selected index t self)))
      index) as [record Hrecord].
    { by rewrite unmark_previous_length, selected_length. }
    eexists _, _, _, [(key_at self index, inl value)].
    split; [done|]. split; [done|]. split; [done|]. split.
    { by intros [|k] key exc. }
    exists [], index, (succeeded t' record). cbn [length]. repeat split; try done.
    unfold succeeded_at. cbn [_records]. by rewrite list_lookup_alter_eq, Hrecord.
  - unfold recording_time at 1. destruct (time_time w2) as [t' w3].
    set (self2 := failed_at str index t' exc (selected index t self)).
    assert (steps str self self2) as Hsteps2
      by apply steps_failure, steps_select, steps_none.
    assert (∀ j, j ∈ indices → eligible self2 j = true) as Hindices2.
    { intros j Hj. unfold self2.
      rewrite eligible_failed_at, eligible_selected, Hindices by by right.
      rewrite bool_decide_true; [done|]. by intros ->. }
    destruct (IH (errors ++ [exc]) self2 w3 (log0 ++ [(key_at self index, inr (Exception exc))])
                Hnodup Hindices2)
      as (r & self' & w' & attempts & Hrecorded & Hplain & Hkeys & Hfailed & Hr).
    exists r, self', w', ((key_at self index, inr (Exception exc)) :: attempts).
    split; [by rewrite Hrecorded, <-app_assoc|]. split; [done|].
    split.
    { cbn. f_equal. rewrite Hkeys. apply list_fmap_ext.
      intros _ j _. by apply key_at_steps. }
    split.
    { intros [|k] key exc' Hk; [|by apply Hfailed in Hk].
      assert (steps str self2 self') as Hsteps'.
      { replace self' with (failover time_time str fn indices (errors ++ [exc]) self2 w3).1.2
          by by rewrite Hplain.
        apply failover_steps. intros j Hj. by apply eligible_lt, Hindices2. }
      destruct (lookup_lt_is_Some_2 (_records (selected index t self)) index)
        as [record Hrecord]; [by rewrite selected_length|].
      destruct (steps_disabled _ _ _ index (failed_with str t' exc record) Hsteps')
        as (record' & Hrecord' & Hdisabled'); [|done|].
      { unfold self2, failed_at. cbn [_records].
        by rewrite list_lookup_alter_eq, Hrecord. }
      by exists index, record'. }
    destruct r as [value|e].
    + destruct Hr as (fails & index' & record & -> & Hfails & Hindex' & Hrest).
      exists ((key_at self index, inr (Exception exc)) :: fails), index', record.
      split; [by rewrite (key_at_steps _ _ _ Hsteps2)|].
      split; [by constructor|]. done.
    + destruct Hr as [(-> & Hattempts & Hlength)
                     |(fails & index' & record & b & -> & -> & Hfails & Hindex' & Hrest)].
      * left. split; [by rewrite <-app_assoc|]. split; [by constructor|].
        cbn. by rewrite Hlength.
      * right.
        exists ((key_at self index, inr (Exception exc)) :: fails), index', record, b.
        split; [done|]. split; [by rewrite (key_at_steps _ _ _ Hsteps2)|].
        split; [by constructor|]. done.
  - destruct (lookup_lt_is_Some_2 (_records self) index) as [record Hrecord]; [done|].
    eexists _, _, _, [(key_at self index, inr (NotException b))].
    split; [done|]. split; [done|]. split; [done|]. split.
    { by intros [|k] key exc. }
    right. exists [], index, (activated t record), b. cbn [length].
    split; [done|]. split; [done|]. split; [done|]. split; [done|].
    split; [unfold selected; cbn [_records]; by rewrite list_lookup_alter_eq, Hrecord|].
    split; [done|]. cbn.
    rewrite (eligible_lookup _ _ _ Hrecord) in Heligible.
    by apply negb_true_iff in Heligible.
Qed.





End Attempts.

(** *** Round robin *)

Section RoundRobin.
Context {Time Err Val World : Type}.
Variable time_time : World → Time * World.
Variable str : Err → string.
Implicit Types (self : @GeminiKeyManager Time) (w : World).
Implicit Types (fn : @Callable Err Val World).

Lemma all_eligible_enabled self :
  (∀ record, record ∈ _records self → disabled record = false) →
  all_eligible self.
Proof.
  intros Henabled j [record Hrecord]%lookup_lt_is_Some_2.
  rewrite (eligible_lookup _ _ _ Hrecord).
  apply list_elem_of_lookup_2 in Hrecord. by rewrite Henabled.
Qed.

Lemma rotation_all_eligible self :
  all_eligible self →
  rotation self = cyclic_order (_next_index self) (length (_records self)).
Proof.
  intros Hall. unfold rotation.
  assert (Forall (λ j, eligible self j = true)
    (cyclic_order (_next_index self) (length (_records self)))) as Hforall.
  { apply Forall_forall. intros j Hj%cyclic_order_lt. by apply Hall. }
  induction Hforall as [|j l Hj _ IH]; [done|].
  by rewrite filter_cons_True, IH.
Qed.

Lemma rotation_all_eligible_head self :
  all_eligible self → 0 < length (_records self) →
  ∃ rest, rotation self
    = (_next_index self + 0) mod length (_records self) :: rest.
Proof.
  intros Hall Hlength. rewrite rotation_all_eligible by done.
  rewrite (cyclic_order_split _ _ 0) by done. cbn. eauto.
Qed.

Lemma all_eligible_selected index t self :
  all_eligible self → all_eligible (selected index t self).
Proof.
  intros Hall j. rewrite selected_length, eligible_selected. apply Hall.
Qed.

Lemma all_eligible_succeeded_at index t self :
  all_eligible self → all_eligible (succeeded_at index t self).
Proof.
  intros Hall j. rewrite succeeded_at_length, eligible_succeeded_at. apply Hall.
Qed.

(** [k] selections in a row among eligible records. *)
Lemma times__activate_next_index k self w :
  all_eligible self → 0 < length (_records self) →
  (times k (_activate_next_index (Err:=Err) time_time) self w).1.1
  = Return ((λ j, Return
      (Some ((_next_index self + j) mod length (_records self)))) <$> seq 0 k).
Proof.
  revert self w. induction k as [|k IH]; intros self w Hall Hlength; [done|].
  cbn [times]. unfold bind at 1, try.
  rewrite _activate_next_index_spec.
  destruct (rotation_all_eligible_head self Hall Hlength) as [rest ->].
  set (index := (_next_index self + 0) mod length (_records self)).
  destruct (time_time w) as [t w1]. unfold bind at 1.
  specialize (IH (selected index t self) w1 (all_eligible_selected _ _ _ Hall)).
  rewrite selected_length in IH. specialize (IH Hlength).
  destruct (times k _ (selected index t self) w1) as [[rs self'] w'].
  simpl in IH. subst rs. unfold ret. cbn [fst seq fmap list_fmap]. do 2 f_equal.
  apply fmap_seq_ext. intros j _. do 2 f_equal. unfold index.
  rewrite Nat.add_0_r, Nat.Div0.add_mod_idemp_l, <-Nat.add_assoc,
    Nat.Div0.add_mod_idemp_l.
  f_equal; lia.
Qed.

(** [k] runs in a row of a callable that succeeds, among eligible records. *)
Lemma times_run_with_key k fn self w (log0 : list (@Attempt Err Val)) :
  all_eligible self → well_formed self →
  (∀ key w, ∃ value w', fn key w = (inl value, w')) →
  ∃ rs self' w' attempts,
    times k (run_with_key (recording_time time_time) str (recording fn)) self (w, log0)
    = (Return rs, self', (w', log0 ++ attempts))
    ∧ attempts.*1
      = key_at self <$> ((λ j, (_next_index self + j) mod length (_records self))
                           <$> seq 0 k)
    ∧ Forall2 (λ r a, ∃ value, r = Return value ∧ a.2 = inl value) rs attempts.
Proof.
  intros Hall Hwf Hfn. revert self w log0 Hall Hwf.
  induction k as [|k IH]; intros self w log0 Hall Hwf.
  { exists [], self, w, []. by rewrite app_nil_r. }
  assert (0 < length (_records self)) as Hlength by (destruct Hwf; lia).
  cbn [times]. unfold bind at 1, try.
  rewrite run_with_key_failover by done.
  destruct (rotation_all_eligible_head self Hall Hlength) as [rest ->].
  set (index := (_next_index self + 0) mod length (_records self)).
  assert (index < length (_records self)) as Hindex
    by by apply Nat.mod_upper_bound; lia.
  cbn [failover]. unfold recording_time at 1, recording at 1.
  destruct (time_time w) as [t w1].
  destruct (Hfn (key_at self index) w1) as (value & w2 & ->).
  unfold recording_time at 1. destruct (time_time w2) as [t' w3].
  set (self1 := succeeded_at index t' (selected index t self)).
  assert (steps str self self1) as Hsteps.
  { apply steps_success; [apply steps_select, steps_none|].
    by rewrite selected_length. }
  destruct (IH self1 w3 (log0 ++ [(key_at self index, inl value)]))
    as (rs & self' & w' & attempts & Hrun & Hkeys & Hrs).
  { by apply all_eligible_succeeded_at, all_eligible_selected. }
  { by eapply steps_well_formed. }
  unfold bind at 1. rewrite Hrun. unfold ret.
  exists (Return value :: rs), self', w', ((key_at self index, inl value) :: attempts).
  split; [by rewrite <-app_assoc|]. split.
  - cbn [fmap list_fmap seq fst]. f_equal. rewrite Hkeys.
    rewrite (steps_length _ _ _ Hsteps). cbn [self1 succeeded_at selected _next_index].
    rewrite <-!list_fmap_compose. apply fmap_seq_ext. intros j _. cbn.
    rewrite (key_at_steps _ _ _ _ Hsteps). f_equal. unfold index.
    rewrite Nat.add_0_r, Nat.Div0.add_mod_idemp_l, <-Nat.add_assoc,
      Nat.Div0.add_mod_idemp_l.
    f_equal; lia.
  - constructor; [by exists value|done].
Qed.

(** C1. Among [n] records none of which is disabled, [n] calls of
    [_activate_next_index] in a row return every index exactly once, in
    increasing cyclic order from the cursor; and [n] calls of
    [run_with_key] in a row with a callable that succeeds call it once with
    each key, in that order, and return what it returned. *)
Theorem round_robin_fairness fn self w :
  well_formed self →
  (∀ record, record ∈ _records self → disabled record = false) →
  (∀ key w, ∃ value w', fn key w = (inl value, w')) →
  let n := length (_records self) in
  let order := cyclic_order (_next_index self) n in
  order ≡ₚ seq 0 n
  ∧ (∀ k, k < n → order !! k = Some ((_next_index self + k) mod n))
  ∧ order !! 0 = Some (_next_index self)
  ∧ (times n (_activate_next_index (Err:=Err) time_time) self w).1.1
    = Return ((λ index, Return (Some index)) <$> order)
  ∧ ∃ rs self' w' log,
      times n (run_with_key (recording_time time_time) str (recording fn))
        self (w, [])
      = (Return rs, self', (w', log))
      ∧ log.*1 = key_at self <$> order
      ∧ Forall2 (λ r a, ∃ value, r = Return value ∧ a.2 = inl value) rs log.
Proof.
  intros Hwf Henabled%all_eligible_enabled Hfn n order.
  assert (0 < n) as Hn by (destruct Hwf; unfold n; lia).
  assert (∀ k, k < n → order !! k = Some ((_next_index self + k) mod n)) as Horder.
  { intros k Hk. unfold order, cyclic_order.
    by rewrite list_lookup_fmap, lookup_seq_lt. }
  split; [apply cyclic_order_Permutation|]. split; [done|]. split.
  { rewrite Horder, Nat.add_0_r by done. f_equal. apply Nat.mod_small.
    by destruct Hwf. }
  split.
  { rewrite times__activate_next_index by done. unfold order, cyclic_order.
    by rewrite <-list_fmap_compose. }
  destruct (times_run_with_key n fn self w [] Henabled Hwf Hfn)
    as (rs & self' & w' & attempts & Hrun & Hkeys & Hrs).
  by exists rs, self', w', attempts.
Qed.
End RoundRobin.

(** *** Keys from the environment *)

Section Environment.
Context {Time Err : Type}.
Implicit Types (keys acc : list string) (seen : gset string).




Lemma filter_first_seen (P : string → Prop) `{!∀ x, Decision (P x)} l :
  filter P (first_seen l) = first_seen (filter P l).
Proof.
  induction l as [|y l IH]; [done|]. cbn [first_seen].
  rewrite !filter_cons. case_decide.
  - cbn [first_seen]. f_equal. rewrite <-IH, !list_filter_filter.
    apply list_filter_iff. tauto.
  - rewrite <-IH, list_filter_filter. apply list_filter_iff.
    intros x. split; [tauto|]. intros Hx. split; [done|]. by intros ->.
Qed.


Lemma filter_Forall {A} (P : A → Prop) `{!∀ x, Decision (P x)} (l : list A) :
  Forall P l → filter P l = l.
Proof. induction 1; [done|]. rewrite filter_cons_True by done. by f_equal. Qed.







Lemma text_chars s : text (chars s) = s.
Proof. induction s as [|c s IH]; [done|]. cbn. by rewrite IH. Qed.

Lemma chars_text l : chars (text l) = l.
Proof. induction l as [|c l IH]; [done|]. cbn. by rewrite IH. Qed.



Lemma chars_inj s1 s2 : chars s1 = chars s2 → s1 = s2.
Proof.
  intros Heq. by rewrite <-(text_chars s1), Heq, text_chars.
Qed.



















End Environment.

(** *** The theorems on the scenarios of the tests *)

Lemma manager_of_well_formed key keys : well_formed (manager_of (key :: keys)).
Proof. split; [simpl; lia|done]. Qed.

Lemma manager_of_reachable key keys :
  reachable (Val:=string) ticking id (key :: keys) (manager_of (key :: keys)).
Proof. by apply reachable_init. Qed.

(** Two keys and two selections, then two runs that succeed. *)
Lemma round_robin_fairness_witness :
  let self := manager_of ["alpha"; "beta"] in
  well_formed self
  ∧ (∀ record, record ∈ _records self → disabled record = false)
  ∧ (∀ key w, ∃ value w', always_success key w = (inl value, w'))
  ∧ cyclic_order 0 2 ≡ₚ seq 0 2
  ∧ (times 2 (_activate_next_index (Err:=string) ticking) self 0).1.1
    = Return [Return (Some 0); Return (Some 1)]
  ∧ ∃ rs self' w' log,
      times 2 (run_with_key (recording_time ticking) id (recording always_success))
        self (0, [])
      = (Return rs, self', (w', log))
      ∧ log.*1 = ["alpha"; "beta"].
Proof.
  intros self.
  assert (well_formed self) as Hwf by apply manager_of_well_formed.
  assert (∀ record, record ∈ _records self → disabled record = false) as Henabled.
  { intros record Hrecord. repeat (apply elem_of_cons in Hrecord as [->|Hrecord]; [done|]).
    by apply not_elem_of_nil in Hrecord. }
  assert (∀ key w, ∃ value w', always_success key w = (inl value, w')) as Hfn.
  { intros key w. by exists key, w. }
  split; [done|]. split; [done|]. split; [done|].
  destruct (round_robin_fairness ticking id always_success self 0 Hwf Henabled Hfn)
    as (Hperm & _ & _ & Htimes & rs & self' & w' & log & Hrun & Hkeys & _).
  split; [exact Hperm|]. split; [exact Htimes|].
  exists rs, self', w', log. split; [exact Hrun|exact Hkeys].
Defined.






(** Two lines, blanks, an empty entry and a repeated key. *)
Example test_from_environment_lines :
  let raw_keys := " k1 , k2" +:+ String "010" "k1,,k3 " in
  environment_keys {[ "GEMINI_API_KEYS" := raw_keys ]} = ["k1"; "k2"; "k3"]
  ∧ spec_keys line_ends {[ "GEMINI_API_KEYS" := raw_keys ]} = ["k1"; "k2"; "k3"]
  ∧ spec_keys newlines {[ "GEMINI_API_KEYS" := raw_keys ]} = ["k1"; "k2"; "k3"].
Proof. intros raw_keys. split; [|split]; by vm_compute. Qed.


(** The manager after one run that succeeded. *)
Lemma single_last_used_holder_witness :
  let keys := ["alpha"; "beta"] in
  let self := after ticking id (CallRun always_success) (manager_of keys) 0 in
  reachable (Val:=string) ticking id keys self
  ∧ (∀ i j record_i record_j,
       _records self !! i = Some record_i → _records self !! j = Some record_j →
       last_used record_i = true → last_used record_j = true → i = j)
  ∧ (∀ i record,
       _records self !! i = Some record → last_used record = true →
       _last_used_index self = Some i).
Proof.
  intros keys self.
  assert (reachable (Val:=string) ticking id keys self) as Hreachable
    by apply reachable_call, manager_of_reachable.
  split; [exact Hreachable|].
  exact (single_last_used_holder ticking id keys self Hreachable).
Defined.

(** The statuses after that run. *)
Lemma masked_identity_witness :
  let keys := ["alpha"; "0123456789abcdef"] in
  let self := after ticking id (CallRun always_success) (manager_of keys) 0 in
  reachable (Val:=string) ticking id keys self
  ∧ maskedKey <$> get_statuses epoch self = ["al***ha"; "012345...cdef"]
  ∧ (∀ i entry, get_statuses epoch self !! i = Some entry →
       ∃ key, keys !! i = Some key
         ∧ maskedKey entry
           = if decide (Py.len key ≤ 10)
             then Py.take 2 key +:+ "***" +:+ Py.last 2 key
             else Py.take 6 key +:+ "..." +:+ Py.last 4 key).
Proof.
  intros keys self.
  assert (reachable (Val:=string) ticking id keys self) as Hreachable
    by apply reachable_call, manager_of_reachable.
  split; [exact Hreachable|]. split; [reflexivity|].
  exact (proj1 (masked_identity ticking id epoch keys self Hreachable)).
Defined.

(** The manager of one key, after it failed. *)
Lemma no_eligible_key_frame_witness :
  let self := failed_at id 0 1 "no keys work" (selected 0 0 (manager_of ["broken"])) in
  (∀ record, record ∈ _records self → disabled record = true)
  ∧ _activate_next_index (Err:=string) ticking self 2 = (Return None, self, 2).
Proof.
  intros self.
  assert (∀ record, record ∈ _records self → disabled record = true) as Hdisabled.
  { intros record Hrecord. apply elem_of_cons in Hrecord as [->|Hrecord]; [done|].
    by apply not_elem_of_nil in Hrecord. }
  split; [exact Hdisabled|].
  exact (no_eligible_key_frame ticking self 2 Hdisabled).
Defined.

(** The key ["abc"]. *)
Lemma short_secret_disclosure_witness :
  Py.len "abc" ≤ 4
  ∧ _mask_key "abc" = "ab***bc"
  ∧ unmask 3 "ab***bc" = "abc".
Proof.
  assert (Py.len "abc" ≤ 4) as Hlen by (cbv; lia).
  split; [exact Hlen|].
  destruct (short_secret_disclosure "abc" Hlen) as (Hmask & _ & _ & Hunmask).
  split; [exact Hmask|exact Hunmask].
Defined.

(** The three tests of [test_key_manager.py]. *)
Example test_round_robin_rotation_success :
  ∃ manager w manager' w',
    run_with_key ticking id always_success (manager_of ["alpha"; "beta"]) 0
    = (Return "alpha", manager, w)
    ∧ run_with_key ticking id always_success manager w
      = (Return "beta", manager', w')
    ∧ (status' <$> get_statuses epoch manager') = [healthy; healthy]
    ∧ (successCount <$> get_statuses epoch manager') = [1; 1]
    ∧ (isLastUsed <$> get_statuses epoch manager') = [false; true].
Proof. eexists _, _, _, _. split_and!; lazy; reflexivity. Qed.

Example test_failure_disables_key_and_fails_over :
  ∃ manager w manager' w',
    run_with_key ticking id always_success (manager_of ["good"; "bad"]) 0
    = (Return "good", manager, w)
    ∧ run_with_key (recording_time ticking) id (recording fail_for_bad) manager (w, [])
      = (Return "good", manager', w')
    ∧ w'.2.*1 = ["bad"; "good"]
    ∧ (status' <$> get_statuses epoch manager') !! 1 = Some failed
    ∧ (disabled' <$> get_statuses epoch manager') !! 1 = Some true
    ∧ (failureCount <$> get_statuses epoch manager') !! 1 = Some 1
    ∧ (successCount <$> get_statuses epoch manager') !! 0 = Some 2
    ∧ available_key_count manager' = 1.
Proof. eexists _, _, _, _. split_and!; lazy; reflexivity. Qed.

Example test_raises_when_all_keys_fail :
  ∃ manager w,
    run_with_key ticking id always_fail (manager_of ["broken"]) 0
    = (Raise (GeminiKeyExhaustedError
                "All Gemini API keys failed. Review key statuses for details."
                ["no keys work"]), manager, w)
    ∧ (disabled' <$> get_statuses epoch manager) = [true]
    ∧ (status' <$> get_statuses epoch manager) = [failed]
    ∧ available_key_count manager = 0.
Proof. eexists _, _. split_and!; lazy; reflexivity. Qed.

(** Python's slices and line cuts on small strings. *)
Example py_slices :
  Py.take 2 "alpha" = "al" ∧ Py.last 2 "alpha" = "ha" ∧ Py.last 2 "a" = "a".
Proof. done. Qed.

Example py_strip_split :
  Py.strip "  a b  " = "a b" ∧ Py.strip "   " = ""
  ∧ Py.split "," "a,,b," = ["a"; ""; "b"; ""].
Proof. done. Qed.

Example py_splitlines :
  Py.splitlines
    (String "a" (String "013" (String "010" (String "010" (String "b" (String "010" ""))))))
  = ["a"; ""; "b"].
Proof. done. Qed.

(** *** Construction and the shape of a manager *)

Section Shape.
Context {Time Err Val World : Type}.
Variable time_time : World → Time * World.
Variable str : Err → string.
Variable isoformat : Time → string.
Implicit Types (self : @GeminiKeyManager Time) (w : World).
Implicit Types (fn : @Callable Err Val World).

(** X1. [GeminiKeyManager(keys)] raises the [ValueError] exactly for the empty
    list; the manager it builds else has the cursor at 0, no last success,
    every key available, and one idle entry for each key, in order. *)
Theorem construction_outcomes keys :
  (keys = [] ↔ ∃ msg, __init__ (Time:=Time) (Err:=Err) keys = Raise (ValueError msg))
  ∧ ∀ self, __init__ (Err:=Err) keys = Return self →
      _next_index self = 0
      ∧ _last_used_index self = None
      ∧ available_key_count self = length keys
      ∧ get_statuses isoformat self
        = imap (λ i key,
            {| index := i; maskedKey := _mask_key key; status' := idle;
               disabled' := false; lastError := None; lastUsedAt := None;
               lastSuccessAt := None; lastFailureAt := None;
               successCount := 0; failureCount := 0;
               isLastUsed := false |}) keys.
Proof.
  split.
  - destruct keys; split; [by eexists|done|done|by intros [msg ?]].
  - intros self Hinit. apply __init___Return in Hinit as [Hkeys ->].
    split; [done|]. split; [done|]. split.
    + rewrite available_key_count_length. cbn [_records].
      rewrite filter_Forall, length_fmap; [done|].
      apply Forall_fmap, Forall_true. done.
    + unfold get_statuses. cbn [_records]. by rewrite imap_fmap.
Qed.

(** X2. A manager a client can reach has as many records as it was given keys,
    at least one, with the keys it was given; the cursor and the index of
    the last success are indices of records; and [get_statuses()] has one
    entry for each record, numbered by position. *)
Theorem reachable_shape keys self :
  reachable (Val:=Val) time_time str keys self →
  keys ≠ []
  ∧ raw_key <$> _records self = keys
  ∧ _next_index self < length keys
  ∧ (∀ previous, _last_used_index self = Some previous → previous < length keys)
  ∧ length (get_statuses isoformat self) = length keys
  ∧ (∀ i entry, get_statuses isoformat self !! i = Some entry → index entry = i).
Proof.
  intros Hreachable.
  pose proof (reachable_length _ _ _ _ Hreachable) as Hlength.
  destruct (reachable_well_formed _ _ _ _ Hreachable) as [Hnext Hprevious].
  rewrite Hlength in Hnext, Hprevious.
  split; [intros ->; simpl in Hnext; lia|].
  split.
  { apply list_eq. intros i. rewrite list_lookup_fmap.
    destruct (_records self !! i) as [record|] eqn:Hrecord; simpl.
    - by destruct (reachable_keys _ _ _ _ _ _ Hreachable Hrecord) as [-> _].
    - apply lookup_ge_None in Hrecord. rewrite Hlength in Hrecord.
      symmetry. by apply lookup_ge_None. }
  split; [done|]. split; [done|]. split.
  { unfold get_statuses. by rewrite length_imap. }
  intros i entry. unfold get_statuses. rewrite list_lookup_imap.
  destruct (_records self !! i); [|done]. by intros [= <-].
Qed.

(** X3. Whatever the calls, the counters of a record do not decrease. *)
Theorem counters_only_grow (calls : list (@Call Err Val World * World))
    self index record :
  _records self !! index = Some record →
  ∃ record', _records (after_calls time_time str calls self) !! index = Some record'
    ∧ success_count record ≤ success_count record'
    ∧ failure_count record ≤ failure_count record'.
Proof.
  intros Hrecord. eapply steps_counters; [apply after_calls_steps|done].
Qed.


End Shape.

(** *** Selection in general *)

Section Selection.
Context {Time Err Val World : Type}.
Variable time_time : World → Time * World.
Variable str : Err → string.
Implicit Types (self : @GeminiKeyManager Time) (w : World).

Lemma elem_of_cyclic_order c n i : i ∈ cyclic_order c n ↔ i < n.
Proof.
  rewrite cyclic_order_Permutation, elem_of_seq. lia.
Qed.

Lemma elem_of_rotation self i : i ∈ rotation self ↔ eligible self i = true.
Proof.
  unfold rotation. rewrite list_elem_of_filter, elem_of_cyclic_order.
  split; [tauto|]. intros Heligible. split; [done|by apply eligible_lt].
Qed.

(** Where the first element of the rotation stands in the cyclic order. *)
Lemma rotation_head_offset self index rest :
  rotation self = index :: rest →
  ∃ k, k < length (_records self)
    ∧ index = (_next_index self + k) mod length (_records self)
    ∧ ∀ j, j < k →
        eligible self ((_next_index self + j) mod length (_records self)) = false.
Proof.
  unfold rotation. set (n := length (_records self)). set (c := _next_index self).
  intros (l1 & l2 & Hsplit & Hl1 & Hindex & Hl2)%filter_cons_inv.
  assert (length l1 < n) as Hk.
  { rewrite <-(cyclic_order_length c n), Hsplit, length_app. simpl. lia. }
  rewrite (cyclic_order_split c n (length l1)) in Hsplit by done.
  apply app_inj_1 in Hsplit as [Hl1' [= Hindex' _]].
  2:{ by rewrite length_fmap, length_seq. }
  exists (length l1). split; [done|]. split; [done|].
  intros j Hj. apply not_true_is_false. intros Heligible.
  eapply (filter_nil_not_elem_of _ _ _ Hl1); [exact Heligible|].
  rewrite <-Hl1'. apply list_elem_of_fmap. exists j. split; [done|].
  apply elem_of_seq. lia.
Qed.

(** X5. [_activate_next_index] returns the first index, counting from the
    cursor and wrapping around, whose record is not disabled; and it
    returns [None] only when every record is disabled. *)
Theorem selection_first_eligible self w :
  match (_activate_next_index (Err:=Err) time_time self w).1.1 with
  | Return (Some index) =>
      ∃ k, k < length (_records self)
        ∧ index = (_next_index self + k) mod length (_records self)
        ∧ eligible self index = true
        ∧ ∀ j, j < k →
            eligible self ((_next_index self + j) mod length (_records self))
            = false
  | Return None => ∀ record, record ∈ _records self → disabled record = true
  | Raise _ => False
  end.
Proof.
  rewrite _activate_next_index_spec.
  destruct (rotation self) as [|index rest] eqn:Hrotation.
  - cbn. intros record [i Hrecord]%list_elem_of_lookup_1.
    apply not_false_is_true. intros Henabled.
    assert (i ∈ rotation self) as Hin.
    { apply elem_of_rotation. rewrite (eligible_lookup _ _ _ Hrecord).
      by rewrite Henabled. }
    rewrite Hrotation in Hin. by apply not_elem_of_nil in Hin.
  - destruct (time_time w) as [t w1]. cbn.
    destruct (rotation_head_offset _ _ _ Hrotation) as (k & Hk & Hindex & Hbefore).
    exists k. split; [done|]. split; [done|].
    split; [by eapply rotation_head_eligible|done].
Qed.


Lemma times_rotation k self w :
  k ≤ length (rotation self) →
  (times k (_activate_next_index (Err:=Err) time_time) self w).1.1
  = Return ((λ index, Return (Some index)) <$> take k (rotation self)).
Proof.
  revert self w. induction k as [|k IH]; intros self w Hk; [done|].
  cbn [times]. unfold bind at 1, try. rewrite _activate_next_index_spec.
  destruct (rotation self) as [|index rest] eqn:Hrotation; [simpl in Hk; lia|].
  destruct (time_time w) as [t w1]. unfold bind at 1.
  specialize (IH (selected index t self) w1).
  rewrite (rotation_selected _ _ rest) in IH by done.
  rewrite length_app in IH. simpl in Hk, IH. specialize (IH ltac:(lia)).
  destruct (times k _ (selected index t self) w1) as [[rs self'] w'].
  simpl in IH. subst rs. unfold ret. cbn. do 3 f_equal.
  rewrite take_app_le by lia. done.
Qed.

Lemma list_filter_iff_elem {A} (P Q : A → Prop)
    `{!∀ x, Decision (P x), !∀ x, Decision (Q x)} (l : list A) :
  (∀ x, x ∈ l → (P x ↔ Q x)) → filter P l = filter Q l.
Proof.
  induction l as [|x l IH]; intros HPQ; [done|].
  rewrite !filter_cons, IH by (intros y Hy; apply HPQ; by right).
  apply decide_ext, HPQ. left.
Qed.

Lemma filter_indices {A} (f : A → bool) (l : list A) :
  length (filter (λ i, from_option f false (l !! i) = true) (seq 0 (length l)))
  = length (filter (λ x, f x = true) l).
Proof.
  induction l as [|x l IH] using rev_ind; [done|].
  rewrite length_app, Nat.add_1_r, seq_S, !filter_app, !length_app. cbn [Nat.add].
  f_equal.
  - rewrite <-IH. f_equal. apply list_filter_iff_elem.
    intros i Hi%elem_of_seq. by rewrite lookup_app_l by lia.
  - rewrite !filter_cons, !filter_nil, list_lookup_middle by done. cbn.
    by destruct (f x).
Qed.

(** The number of available keys is the length of the rotation. *)
Lemma available_key_count_rotation self :
  available_key_count self = length (rotation self).
Proof.
  rewrite available_key_count_length. unfold rotation.
  rewrite cyclic_order_Permutation.
  rewrite (list_filter_iff _ (λ record, negb (disabled record) = true))
    by (intros record; by destruct (disabled record)).
  by rewrite <-filter_indices.
Qed.

(** X7. Selections go round the available keys: as many selections in a row
    as there are available keys return each eligible index once, in cyclic
    order from the cursor (the rotation). *)
Theorem fair_rotation self w :
  (times (available_key_count self) (_activate_next_index (Err:=Err) time_time)
     self w).1.1
  = Return ((λ index, Return (Some index)) <$> rotation self)
  ∧ NoDup (rotation self)
  ∧ (∀ index, index ∈ rotation self
       ↔ ∃ record, _records self !! index = Some record ∧ disabled record = false).
Proof.
  split; [|split; [apply rotation_NoDup|]].
  - rewrite times_rotation by (rewrite available_key_count_rotation; lia).
    by rewrite available_key_count_rotation, firstn_all.
  - intros index. rewrite elem_of_rotation. unfold eligible.
    destruct (_records self !! index) as [record|].
    + split; [intros ?%negb_true_iff; by exists record|].
      intros (? & [= <-] & ->). done.
    + split; [done|]. by intros (? & ? & _).
Qed.
End Selection.

(** *** What recording an outcome changes *)

Section Outcomes.
Context {Time Err Val World : Type}.
Variable time_time : World → Time * World.
Variable str : Err → string.
Implicit Types (self : @GeminiKeyManager Time) (w : World).


(** X9. After [_record_success] on an index of a record, in a manager a client
    can reach, that record is the only one marked as last used and
    [_last_used_index] names it; it is healthy with one more success and no
    error; the other records are as before, but for the mark; and the
    cursor is where it was. *)
Theorem record_success_effect keys index self w :
  reachable (Val:=Val) time_time str keys self →
  index < length (_records self) →
  ∃ t w' self' record,
    time_time w = (t, w')
    ∧ _record_success (Err:=Err) time_time index self w = (Return (), self', w')
    ∧ _records self !! index = Some record
    ∧ _records self' !! index
      = Some {| raw_key := raw_key record; masked_key := masked_key record;
                status := healthy; disabled := disabled record;
                last_error := None; last_used_at := Some t;
                last_success_at := Some t;
                last_failure_at := last_failure_at record;
                success_count := success_count record + 1;
                failure_count := failure_count record;
                last_used := true |}
    ∧ (∀ j record', _records self' !! j = Some record' →
         (last_used record' = true ↔ j = index))
    ∧ (∀ j, j ≠ index →
         unmarked <$> _records self' !! j = unmarked <$> _records self !! j)
    ∧ _last_used_index self' = Some index
    ∧ _next_index self' = _next_index self.
Proof.
  intros Hreachable Hindex.
  destruct (reachable_well_formed _ _ _ _ Hreachable) as [_ Hprevious].
  pose proof (reachable_marked_is_last _ _ _ _ Hreachable) as Hmarked.
  destruct (time_time w) as [t w'] eqn:Htime.
  destruct (lookup_lt_is_Some_2 _ _ Hindex) as [record Hrecord].
  exists t, w', (succeeded_at index t self), record.
  split; [done|]. split; [by rewrite _record_success_spec, Htime|].
  split; [done|].
  assert (∀ j, _records (unmark_previous index self) !! j
               = (if decide (_last_used_index self = Some j ∧ j ≠ index)
                  then unmarked else id) <$> _records self !! j) as Hunmark.
  { intros j. unfold unmark_previous. cbn [_records].
    destruct (_last_used_index self) as [previous|] eqn:Hlast.
    - case_decide as Hne.
      + rewrite list_lookup_alter. destruct (decide (previous = j)) as [<-|Hj].
        * by rewrite decide_True.
        * rewrite decide_False by (intros [[= ->] _]; done).
          by destruct (_records self !! j).
      + subst previous. rewrite decide_False by (intros [[= ->] ?]; done).
        by destruct (_records self !! j).
    - rewrite decide_False by (by intros [? _]). by destruct (_records self !! j). }
  unfold succeeded_at at 1 2 3. cbn [_records _last_used_index _next_index].
  split.
  { rewrite list_lookup_alter_eq, Hunmark, Hrecord.
    rewrite decide_False by (by intros [_ ?]). done. }
  split.
  { intros j record'. rewrite list_lookup_alter.
    destruct (decide (index = j)) as [<-|Hj].
    - rewrite Hunmark, Hrecord. simpl. intros [= <-]. done.
    - rewrite Hunmark. destruct (_records self !! j) as [record_j|] eqn:Hrecord_j;
        [|done].
      simpl. intros [= <-]. split; [|done]. intros Hlast. exfalso.
      case_decide as Hlast_j; [done|]. simpl in Hlast.
      specialize (Hmarked _ _ Hrecord_j Hlast). apply Hlast_j. split; [done|auto]. }
  split; [|done].
  intros j Hj. rewrite list_lookup_alter_ne, Hunmark by done.
  destruct (_records self !! j); [|done]. simpl. by case_decide.
Qed.
End Outcomes.

(** *** The accounts of a run *)

Section Accounting.
Context {Time Err Val World : Type}.
Variable time_time : World → Time * World.
Variable str : Err → string.
Implicit Types (self : @GeminiKeyManager Time) (w : World).

Local Abbreviation Rtime := (recording_time (Val:=Val) (Err:=Err) time_time).

Lemma sum_list_alter {A} (f : A → nat) (g : A → A) index (l : list A) x d :
  l !! index = Some x → f (g x) = f x + d →
  sum_list (f <$> alter g index l) = sum_list (f <$> l) + d.
Proof.
  revert index. induction l as [|y l IH]; intros [|index] Hx Hd; try done.
  - injection Hx as ->. cbn. lia.
  - cbn in *. rewrite (IH index) by done. lia.
Qed.

Lemma sum_list_alter_same {A} (f : A → nat) (g : A → A) index (l : list A) :
  (∀ x, f (g x) = f x) →
  sum_list (f <$> alter g index l) = sum_list (f <$> l).
Proof.
  intros Hg. revert index. induction l as [|y l IH]; intros [|index]; try done.
  - cbn. by rewrite Hg.
  - cbn. by rewrite <-(IH index).
Qed.

Lemma counters_selected index t self :
  successes (selected index t self) = successes self
  ∧ failures_counted (selected index t self) = failures_counted self.
Proof.
  unfold successes, failures_counted, selected. cbn [_records].
  by rewrite !sum_list_alter_same.
Qed.

Lemma counters_failed_at index t error self :
  index < length (_records self) →
  successes (failed_at str index t error self) = successes self
  ∧ failures_counted (failed_at str index t error self) = failures_counted self + 1.
Proof.
  intros [record Hrecord]%lookup_lt_is_Some_2.
  unfold successes, failures_counted, failed_at. cbn [_records].
  rewrite sum_list_alter_same by done.
  by rewrite (sum_list_alter _ _ _ _ record 1).
Qed.

Lemma counters_unmark_previous index self :
  successes (unmark_previous index self) = successes self
  ∧ failures_counted (unmark_previous index self) = failures_counted self.
Proof.
  unfold successes, failures_counted, unmark_previous. cbn [_records].
  destruct (_last_used_index self) as [previous|]; [|done].
  case_decide; [|done]. by rewrite !sum_list_alter_same.
Qed.

Lemma counters_succeeded_at index t self :
  index < length (_records self) →
  successes (succeeded_at index t self) = successes self + 1
  ∧ failures_counted (succeeded_at index t self) = failures_counted self.
Proof.
  intros Hindex. rewrite <-(unmark_previous_length index) in Hindex.
  apply lookup_lt_is_Some_2 in Hindex as [record Hrecord].
  destruct (counters_unmark_previous index self) as [<- <-].
  unfold successes, failures_counted, succeeded_at. cbn [_records].
  rewrite (sum_list_alter_same failure_count) by done.
  by rewrite (sum_list_alter success_count _ _ _ record 1).
Qed.

(** The failover over the rotation, with the callable recorded: what the
    attempts of the log add up to. *)
Lemma failover_accounts fn n :
  ∀ errors self w log0,
    length (rotation self) = n →
    ∃ r self' w' attempts,
      failover Rtime str (recording fn) (rotation self) errors self (w, log0)
      = (r, self', (w', log0 ++ attempts))
      ∧ available_key_count self' + length (failures attempts) = available_key_count self
      ∧ failures_counted self' = failures_counted self + length (failures attempts)
      ∧ match r with
        | Return value =>
            successes self' = successes self + 1
            ∧ 0 < available_key_count self'
            ∧ ∃ fails key,
                attempts = fails ++ [(key, inl value)] ∧ Forall is_failure fails
        | Raise e =>
            successes self' = successes self
            ∧ ((e = exhausted (errors ++ failures attempts)
                ∧ Forall is_failure attempts
                ∧ available_key_count self' = 0)
               ∨ (∃ b fails key,
                    e = Propagated b
                    ∧ 0 < available_key_count self'
                    ∧ attempts = fails ++ [(key, inr (NotException b))]
                    ∧ Forall is_failure fails))
        end.
Proof.
  induction n as [|n IH]; intros errors self w log0 Hlength.
  { apply nil_length_inv in Hlength as Hnil. rewrite Hnil.
    exists (Raise (exhausted errors)), self, w, []. cbn.
    rewrite !app_nil_r, !Nat.add_0_r. split; [done|]. split; [done|].
    split; [done|]. split; [done|]. left. split; [done|]. split; [done|].
    by rewrite available_key_count_rotation, Hlength. }
  destruct (rotation self) as [|index rest] eqn:Hrotation; [done|].
  injection Hlength as Hlength.
  pose proof (rotation_head_eligible _ _ _ Hrotation) as Heligible.
  pose proof (eligible_lt _ _ Heligible) as Hindex.
  cbn [failover]. unfold recording_time at 1, recording at 1.
  destruct (time_time w) as [t w1].
  destruct (fn (key_at self index) w1) as [[value|[exc|b]] w2] eqn:Hfn.
  - unfold recording_time at 1. destruct (time_time w2) as [t' w3].
    eexists _, _, _, [(key_at self index, inl value)].
    split; [done|].
    change (failures [(key_at self index, inl value)]) with (@nil Err).
    cbn [length].
    rewrite !Nat.add_0_r, available_key_count_succeeded_at,
      available_key_count_selected.
    destruct (counters_succeeded_at index t' (selected index t self)) as [-> ->];
      [by rewrite selected_length|].
    destruct (counters_selected index t self) as [-> ->].
    split; [done|]. split; [done|]. split; [done|]. split.
    + rewrite available_key_count_rotation, Hrotation. cbn. lia.
    + by exists [], (key_at self index).
  - unfold recording_time at 1. destruct (time_time w2) as [t' w3].
    set (self2 := failed_at str index t' exc (selected index t self)).
    assert (rotation self2 = rest) as Hrotation2
      by by apply rotation_failed_selected.
    destruct (IH (errors ++ [exc]) self2 w3
                (log0 ++ [(key_at self index, inr (Exception exc))]))
      as (r & self' & w' & attempts & Hrecorded & Havailable & Hfailures & Hr).
    { by rewrite Hrotation2. }
    rewrite Hrotation2 in Hrecorded.
    exists r, self', w', ((key_at self index, inr (Exception exc)) :: attempts).
    split; [by rewrite Hrecorded, <-app_assoc|].
    assert (available_key_count self2 + 1 = available_key_count self) as Hcount.
    { unfold self2. rewrite available_key_count_failed_at
        by by rewrite eligible_selected.
      apply available_key_count_selected. }
    destruct (counters_failed_at index t' exc (selected index t self))
      as [Hsuccesses2 Hfailures2]; [by rewrite selected_length|].
    destruct (counters_selected index t self) as [Hsuccesses1 Hfailures1].
    fold self2 in Hsuccesses2, Hfailures2.
    change (failures ((key_at self index, inr (Exception exc)) :: attempts))
      with (exc :: failures attempts).
    cbn [length]. split; [lia|]. split; [lia|].
    destruct r as [value|e].
    + destruct Hr as (Hs & Ha & fails & key & -> & Hfails).
      split; [congruence|]. split; [done|].
      exists ((key_at self index, inr (Exception exc)) :: fails), key.
      split; [done|by constructor].
    + destruct Hr as (Hs & [(-> & Hfails & Ha)|(b & fails & key & -> & Ha & -> & Hfails)]).
      * split; [congruence|]. left. split; [by rewrite <-app_assoc|].
        split; [by constructor|done].
      * split; [congruence|]. right.
        exists b, ((key_at self index, inr (Exception exc)) :: fails), key.
        split; [done|]. split; [done|]. split; [done|by constructor].
  - eexists _, _, _, [(key_at self index, inr (NotException b))].
    split; [done|].
    change (failures [(key_at self index, inr (NotException b))]) with (@nil Err).
    cbn [length].
    rewrite !Nat.add_0_r, available_key_count_selected.
    destruct (counters_selected index t self) as [-> ->].
    split; [done|]. split; [done|]. split; [done|]. right.
    exists b, [], (key_at self index). split; [done|]. split; [|done].
    rewrite available_key_count_rotation, Hrotation. cbn. lia.
Qed.

End Accounting.

(** *** Exhaustion is final *)

Section Exhaustion.
Context {Time Err Val World : Type}.
Variable time_time : World → Time * World.
Variable str : Err → string.
Implicit Types (self : @GeminiKeyManager Time) (w : World).

Lemma available_key_count_0 self :
  available_key_count self = 0 ↔
  ∀ record, record ∈ _records self → disabled record = true.
Proof.
  rewrite available_key_count_length. split.
  - intros Hnil%nil_length_inv record Hrecord.
    destruct (disabled record) eqn:Hdisabled; [done|].
    assert (record ∈ filter (λ record, disabled record = false) (_records self)) as Hin
      by by apply list_elem_of_filter.
    rewrite Hnil in Hin. by apply elem_of_nil in Hin.
  - intros Hall. induction (_records self) as [|record records IH]; [done|].
    rewrite filter_cons_False.
    + apply IH. intros record' Hrecord'. apply Hall. by right.
    + rewrite (Hall record) by left. done.
Qed.

Lemma run_with_key_rotation_nil (fn : @Callable Err Val World) self w :
  rotation self = [] →
  run_with_key time_time str fn self w = (Raise (exhausted []), self, w).
Proof.
  intros Hrotation. unfold run_with_key, len_records, bind, get, ret.
  destruct (length (_records self)) as [|n] eqn:Hlength; [done|].
  by rewrite run_loop_S, Hrotation.
Qed.

Lemma run_with_key_exhausted_available (fn : @Callable Err Val World)
    self w msg errors self' w' :
  well_formed self →
  run_with_key time_time str fn self w
  = (Raise (GeminiKeyExhaustedError msg errors), self', w') →
  available_key_count self' = 0.
Proof.
  intros Hwf Hrun. rewrite run_with_key_failover in Hrun by done.
  destruct (failover_recording time_time str fn (rotation self) [] self w [])
    as (r & self1 & w1 & attempts & Hrecorded & Hplain & _).
  { apply rotation_NoDup. }
  { unfold rotation. by intros index [Heligible _]%list_elem_of_filter. }
  rewrite Hrun in Hplain. injection Hplain as <- <- <-.
  destruct (failover_accounts time_time str fn _ [] self w [] eq_refl)
    as (r2 & self2 & w2 & attempts2 & Hrecorded2 & _ & _ & Hr).
  rewrite Hrecorded in Hrecorded2. injection Hrecorded2 as <- <- <- _.
  by destruct Hr as (_ & [(_ & _ & ?)|(b & fails & key & [=] & _)]).
Qed.

(** X11. Once a run of [run_with_key] has raised [GeminiKeyExhaustedError],
    no key is available, and whatever bookkeeping calls and runs follow,
    none becomes available again: every later run raises
    [GeminiKeyExhaustedError] with an empty list of errors and leaves the
    manager and the world as they were, so it reads no clock and calls no
    callable. *)
Theorem exhausted_for_good (fn fn' : @Callable Err Val World) self w msg errors
    self' w' (calls : list (@Call Err Val World * World)) w'' :
  well_formed self →
  run_with_key time_time str fn self w
  = (Raise (GeminiKeyExhaustedError msg errors), self', w') →
  available_key_count self' = 0
  ∧ available_key_count (after_calls time_time str calls self') = 0
  ∧ run_with_key time_time str fn' (after_calls time_time str calls self') w''
    = (Raise (GeminiKeyExhaustedError
                "All Gemini API keys failed. Review key statuses for details." []),
       after_calls time_time str calls self', w'').
Proof.
  intros Hwf Hrun.
  pose proof (run_with_key_exhausted_available _ _ _ _ _ _ _ Hwf Hrun) as Hnone.
  assert (∀ record, record ∈ _records (after_calls time_time str calls self') →
            disabled record = true) as Hall.
  { intros record' [index Hrecord']%list_elem_of_lookup_1.
    pose proof (after_calls_steps time_time str calls self') as Hsteps.
    destruct (lookup_lt_is_Some_2 (_records self') index) as [record Hrecord].
    { rewrite <-(steps_length _ _ _ Hsteps). by eapply lookup_lt_Some. }
    destruct (steps_disabled _ _ _ index record Hsteps Hrecord)
      as (record'' & Hrecord'' & Hdisabled).
    { rewrite available_key_count_0 in Hnone. apply Hnone.
      by eapply list_elem_of_lookup_2. }
    congruence. }
  split; [done|]. split; [by apply available_key_count_0|].
  by apply run_with_key_rotation_nil, rotation_nil_all_disabled.
Qed.
End Exhaustion.

(** *** The records between two runs *)

Section Settled.
Context {Time Err Val World : Type}.
Variable time_time : World → Time * World.
Variable str : Err → string.
Implicit Types (self : @GeminiKeyManager Time) (w : World).
Implicit Types (P : @GeminiKeyRecord Time → Prop).

Local Abbreviation every P self :=
  (∀ j record, _records self !! j = Some record → P record).











End Settled.

(** *** The module's manager is made once *)

Section Once.
Context {Time Err : Type}.
Implicit Types (globals : @Globals Time) (environ : gmap string string).

Lemma access_made (a : Access) environ globals address :
  _manager globals = Some address →
  access (Err:=Err) a environ globals = (Return address, globals).
Proof.
  intros Hmanager. destruct a as [keys|]; cbn [access];
    unfold get_key_manager, initialize_key_manager; by rewrite Hmanager.
Qed.

Lemma access_fresh (a : Access) environ globals :
  _manager globals = None →
  access (Err:=Err) a environ globals
  = match constructs a environ with
    | Return manager =>
        (Return (length (objects globals)),
         {| objects := objects globals ++ [manager];
            _manager := Some (length (objects globals)) |})
    | Raise e => (Raise e, globals)
    end.
Proof.
  intros Hmanager. destruct a as [[keys|]|]; cbn [access constructs];
    unfold get_key_manager, initialize_key_manager; by rewrite Hmanager.
Qed.

Lemma access_all_made calls globals address :
  _manager globals = Some address →
  access_all (Err:=Err) calls globals = (replicate (length calls) (Return address), globals).
Proof.
  intros Hmanager. induction calls as [|[a environ] calls IH]; [done|].
  cbn [access_all]. by rewrite (access_made _ _ _ _ Hmanager), IH.
Qed.

(** X13. Whatever calls of [initialize_key_manager] and [get_key_manager] are
    made on a module whose [_manager] is [None]: the calls before the first
    one whose construction succeeds raise what the constructor raised and
    leave the module as it was; that call makes the one new manager and
    stores it; and every later call returns that same manager, whatever
    keys or environment it is given, and makes nothing. *)
Theorem manager_made_once calls globals :
  _manager globals = None →
  (∃ errors,
     Forall2 (λ call e, constructs (Time:=Time) (Err:=Err) call.1 call.2 = Raise e)
       calls errors
     ∧ access_all calls globals = (Raise <$> errors, globals))
  ∨ (∃ before errors a environ later manager,
       calls = before ++ (a, environ) :: later
       ∧ Forall2 (λ call e, constructs (Time:=Time) (Err:=Err) call.1 call.2 = Raise e)
           before errors
       ∧ constructs (Err:=Err) a environ = Return manager
       ∧ access_all calls globals
         = ((Raise <$> errors)
            ++ replicate (S (length later)) (Return (length (objects globals))),
            {| objects := objects globals ++ [manager];
               _manager := Some (length (objects globals)) |})).
Proof.
  intros Hmanager. induction calls as [|[a environ] calls IH].
  { left. exists []. by split. }
  cbn [access_all]. rewrite (access_fresh _ _ _ Hmanager).
  destruct (constructs a environ) as [manager|e] eqn:Hconstructs.
  - right. exists [], [], a, environ, calls, manager.
    split; [done|]. split; [done|]. split; [done|].
    by rewrite (access_all_made _ _ (length (objects globals))).
  - destruct IH as [(errors & Hall & ->)
                   |(before & errors & a' & environ' & later & manager & -> & Hall
                     & Hmade & ->)].
    + left. exists (e :: errors). split; [by constructor|done].
    + right. exists ((a, environ) :: before), (e :: errors), a', environ', later, manager.
      split; [done|]. split; [by constructor|]. split; done.
Qed.
End Once.

(** *** Which variable of the environment counts *)

Section Precedence.
Context {Time Err : Type}.
Implicit Types (environ : gmap string string).


End Precedence.

(** *** The length of a masked key *)

Lemma len_append (s1 s2 : string) : Py.len (s1 +:+ s2) = Py.len s1 + Py.len s2.
Proof. unfold Py.len. induction s1 as [|c s1 IH]; [done|]. simpl. by f_equal. Qed.

Lemma len_take n (s : string) : Py.len (Py.take n s) = n `min` Py.len s.
Proof.
  unfold Py.len. revert s. induction n as [|n IH]; intros [|c s]; try done.
  cbn. by rewrite IH.
Qed.

Lemma len_drop n (s : string) : Py.len (Py.drop n s) = Py.len s - n.
Proof.
  unfold Py.len. revert s. induction n as [|n IH]; intros [|c s]; try done.
  cbn. by rewrite IH.
Qed.

Lemma len_last n (s : string) : Py.len (Py.last n s) = n `min` Py.len s.
Proof. unfold Py.last. rewrite len_drop. lia. Qed.

(** X16. The masked form of a key of more than 10 characters has 13 characters
    whatever the length of the key; the masked form of a shorter key has 3
    characters more than twice the smaller of 2 and the key's length, so
    between 3 and 7: the masked form never has more than 13 characters and
    never shows more than 10 of the key's. *)
Theorem masked_length (key : string) :
  Py.len (_mask_key key)
  = (if decide (Py.len key ≤ 10) then 3 + 2 * (2 `min` Py.len key) else 13)
  ∧ 3 ≤ Py.len (_mask_key key) ≤ 13
  ∧ Py.len (boundary key).1 + Py.len (boundary key).2 ≤ 10.
Proof.
  assert (Py.len (_mask_key key)
          = if decide (Py.len key ≤ 10) then 3 + 2 * (2 `min` Py.len key) else 13)
    as Hlength.
  { unfold _mask_key. case_decide.
    - rewrite !len_append, len_take, len_last.
      change (Py.len "***") with 3. lia.
    - rewrite !len_append, len_take, len_last.
      change (Py.len "...") with 3. lia. }
  split; [done|]. split.
  - rewrite Hlength. case_decide; lia.
  - unfold boundary. case_decide; cbn [fst snd]; rewrite len_take, len_last; lia.
Qed.

(** *** The further properties at the managers of the tests *)

(** Two keys, after one run that succeeds. *)
Lemma reachable_shape_witness :
  let keys := ["alpha"; "beta"] in
  let self := after ticking id (CallRun always_success) (manager_of keys) 0 in
  reachable (Val:=string) ticking id keys self
  ∧ keys ≠ []
  ∧ raw_key <$> _records self = keys
  ∧ _next_index self < length keys
  ∧ (∀ previous, _last_used_index self = Some previous → previous < length keys)
  ∧ length (get_statuses epoch self) = length keys
  ∧ (∀ i entry, get_statuses epoch self !! i = Some entry → index entry = i).
Proof.
  intros keys self.
  assert (reachable (Val:=string) ticking id keys self) as Hreachable
    by apply reachable_call, manager_of_reachable.
  split; [exact Hreachable|].
  exact (reachable_shape ticking id epoch keys self Hreachable).
Defined.

(** One key, and a run in which it fails. *)
Lemma counters_only_grow_witness :
  let self := manager_of ["broken"] in
  let calls := [(CallRun always_fail, 0)] in
  _records self !! 0 = Some (new_record "broken")
  ∧ ∃ record', _records (after_calls ticking id calls self) !! 0 = Some record'
      ∧ success_count (new_record (Time:=nat) "broken") ≤ success_count record'
      ∧ failure_count (new_record (Time:=nat) "broken") ≤ failure_count record'.
Proof.
  intros self calls.
  assert (_records self !! 0 = Some (new_record "broken")) as Hrecord by reflexivity.
  split; [exact Hrecord|].
  exact (counters_only_grow ticking id calls self 0 _ Hrecord).
Defined.



(** A success of the second key after a run that used the first. *)
Lemma record_success_effect_witness :
  let keys := ["alpha"; "beta"] in
  let self := after ticking id (CallRun always_success) (manager_of keys) 0 in
  reachable (Val:=string) ticking id keys self
  ∧ 1 < length (_records self)
  ∧ ∃ t w' self' record,
      ticking 5 = (t, w')
      ∧ _record_success (Err:=string) ticking 1 self 5 = (Return (), self', w')
      ∧ _records self !! 1 = Some record
      ∧ _records self' !! 1
        = Some {| raw_key := raw_key record; masked_key := masked_key record;
                  status := healthy; disabled := disabled record;
                  last_error := None; last_used_at := Some t;
                  last_success_at := Some t;
                  last_failure_at := last_failure_at record;
                  success_count := success_count record + 1;
                  failure_count := failure_count record;
                  last_used := true |}
      ∧ (∀ j record', _records self' !! j = Some record' →
           (last_used record' = true ↔ j = 1))
      ∧ (∀ j, j ≠ 1 →
           unmarked <$> _records self' !! j = unmarked <$> _records self !! j)
      ∧ _last_used_index self' = Some 1
      ∧ _next_index self' = _next_index self.
Proof.
  intros keys self.
  assert (reachable (Val:=string) ticking id keys self) as Hreachable
    by apply reachable_call, manager_of_reachable.
  assert (1 < length (_records self)) as Hindex by (vm_compute; lia).
  split; [exact Hreachable|]. split; [exact Hindex|].
  exact (record_success_effect ticking id keys 1 self 5 Hreachable Hindex).
Defined.


(** One key that fails, then a run with a callable that would succeed. *)
Lemma exhausted_for_good_witness :
  let self := manager_of ["broken"] in
  let self' := failed_at id 0 1 "no keys work" (selected 0 0 self) in
  let calls := [(CallSuccess 0, 5); (CallRun always_success, 6)] in
  well_formed self
  ∧ run_with_key ticking id always_fail self 0
    = (Raise (GeminiKeyExhaustedError
                "All Gemini API keys failed. Review key statuses for details."
                ["no keys work"]), self', 2)
  ∧ available_key_count self' = 0
  ∧ available_key_count (after_calls ticking id calls self') = 0
  ∧ run_with_key ticking id always_success (after_calls ticking id calls self') 9
    = (Raise (GeminiKeyExhaustedError
                "All Gemini API keys failed. Review key statuses for details." []),
       after_calls ticking id calls self', 9).
Proof.
  intros self self' calls.
  assert (well_formed self) as Hwf by apply manager_of_well_formed.
  assert (run_with_key ticking id always_fail self 0
          = (Raise (GeminiKeyExhaustedError
                      "All Gemini API keys failed. Review key statuses for details."
                      ["no keys work"]), self', 2)) as Hrun by reflexivity.
  split; [exact Hwf|]. split; [exact Hrun|].
  exact (exhausted_for_good ticking id always_fail always_success self 0 _ _ self' 2
           calls 9 Hwf Hrun).
Defined.


(** An empty list of keys, then [get_key_manager()] with a key in the
    environment, then a list of keys that comes too late. *)
Lemma manager_made_once_witness :
  let globals : @Globals nat := {| objects := []; _manager := None |} in
  let calls : list (Access * gmap string string) :=
    [(Initialize (Some []), ∅);
     (Get, {[ "GEMINI_API_KEY" := "secret" ]});
     (Initialize (Some ["other"]), ∅)] in
  _manager globals = None
  ∧ ((∃ errors,
        Forall2 (λ call e, constructs (Time:=nat) (Err:=string) call.1 call.2 = Raise e)
          calls errors
        ∧ access_all calls globals = (Raise <$> errors, globals))
     ∨ (∃ before errors a environ later manager,
          calls = before ++ (a, environ) :: later
          ∧ Forall2 (λ call e, constructs (Time:=nat) (Err:=string) call.1 call.2 = Raise e)
              before errors
          ∧ constructs (Err:=string) a environ = Return manager
          ∧ access_all calls globals
            = ((Raise <$> errors)
               ++ replicate (S (length later)) (Return (length (objects globals))),
               {| objects := objects globals ++ [manager];
                  _manager := Some (length (objects globals)) |}))).
Proof.
  intros globals calls.
  assert (_manager globals = None) as Hmanager by reflexivity.
  split; [exact Hmanager|].
  exact (manager_made_once (Err:=string) calls globals Hmanager).
Defined.



(** The runs of the tests, in the terms of the further properties. *)
Example test_exhausted_manager_stays_exhausted :
  let self := (run_with_key ticking id always_fail (manager_of ["k1"; "k2"]) 0).1.2 in
  available_key_count self = 0
  ∧ (run_with_key ticking id always_success self 4).1.1
    = Raise (GeminiKeyExhaustedError
               "All Gemini API keys failed. Review key statuses for details." []).
Proof. by vm_compute. Qed.

(** A callable that is interrupted: the exception leaves [run_with_key],
    the key stays selected and available, and a later run can use it. *)
Example test_interrupted_run :
  let self := (run_with_key ticking id interrupted (manager_of ["k1"]) 0).1.2 in
  (run_with_key ticking id interrupted (manager_of ["k1"]) 0).1.1
  = Raise (Propagated KeyboardInterrupt)
  ∧ status' <$> get_statuses epoch self = [active]
  ∧ available_key_count self = 1
  ∧ (run_with_key ticking id always_success self 1).1.1 = Return "k1".
Proof. by vm_compute. Qed.

Example test_entries_of_the_environment :
  environment_keys {[ "GEMINI_API_KEYS" := "k1, k2,,k1" ]} = ["k1"; "k2"]
  ∧ environment_keys {[ "GEMINI_API_KEYS" := " , "; "GEMINI_API_KEY" := "k" ]} = []
  ∧ environment_keys {[ "GEMINI_API_KEY" := " k " ]} = ["k"]
  ∧ _mask_key "AIzaSyA-1234567890" = "AIzaSy...7890"
  ∧ _mask_key "abc" = "ab***bc".
Proof. by vm_compute. Qed.
